(** * wallet_finder.core: the brute-force search engine

    A shallow embedding of [src/wallet_finder/core.py] ([WalletFinder.process]
    and [WalletFinder.start]) together with the library iterators the run is
    built from ([itertools.permutations], [itertools.islice],
    [more_itertools.chunked], [enumerate]), and the properties of the engine
    that follow from the code. *)

From Stdlib Require Import String Ascii.
From Stdlib Require Import List Arith ZArith Lia Bool Sorted Permutation.
Import ListNotations.

Set Implicit Arguments.

(** ** Candidate generation *)

Module Generator.

Section Enumeration.

Context {A : Type}.

(** [selections pre l] lists, for every position of [l] from left to right,
    the item at that position paired with the remaining pool (the items
    before it, [pre] included, and the items after it, order kept). *)
Fixpoint selections (pre l : list A) : list (A * list A) :=
  match l with
  | [] => []
  | x :: t => (x, pre ++ t) :: selections (pre ++ [x]) t
  end.

(** The permutation space of the specification: the ordered selections of
    [r] items of [pool] at pairwise different positions, in lexicographic
    order of the positions (none when [r] exceeds the pool size). *)
Fixpoint arrangements (r : nat) (pool : list A) : list (list A) :=
  match r with
  | 0 => [[]]
  | S r' =>
      flat_map (fun s => map (cons (fst s)) (arrangements r' (snd s)))
               (selections [] pool)
  end.

(** [tuple(pool[i] for i in indices)] *)
Definition tuple_of (pool : list A) (indices : list nat) : list A :=
  flat_map (fun i => match nth_error pool i with Some x => [x] | None => [] end)
           indices.

(** [itertools.islice(it, start, None)], as the library steps it: the items
    are consumed one by one under a running index [i], and an item is
    passed on once the index has reached [start]. *)
Fixpoint islice_at (i start : nat) (it : list A) : list A :=
  match it with
  | [] => []
  | x :: t =>
      if Nat.eqb i start then x :: islice_at (S i) (S start) t
      else islice_at (S i) start t
  end.

Definition islice (it : list A) (start : nat) : list A := islice_at 0 start it.

(** [more_itertools.chunked(it, n)] is [iter(partial(take, n, it), [])]:
    it takes [n] items at a time and stops at the first empty take. *)
Fixpoint chunked_fuel (fuel n : nat) (it : list A) : list (list A) :=
  match fuel with
  | 0 => []
  | S fuel' =>
      match firstn n it with
      | [] => []
      | c => c :: chunked_fuel fuel' n (skipn n it)
      end
  end.

Definition chunked (it : list A) (n : nat) : list (list A) :=
  chunked_fuel (length it) n it.

(** [enumerate(it, start)] *)
Fixpoint enumerate (it : list A) (start : Z) : list (Z * A) :=
  match it with
  | [] => []
  | x :: t => (start, x) :: enumerate t (start + 1)
  end.

End Enumeration.

(** The falling factorial [n (n-1) ... (n-r+1)]. *)
Fixpoint falling (n r : nat) : nat :=
  match r with
  | 0 => 1
  | S r' => n * falling (n - 1) r'
  end.

(** *** [itertools.permutations]

    The generator keeps a list [indices] of the [n] positions of the pool
    and a list [cycles] of [r] counters, yields the items at the first [r]
    positions of [indices], and steps from one tuple to the next. *)

(** [l[i] = v] *)
Fixpoint assign (i v : nat) (l : list nat) : list nat :=
  match l, i with
  | [], _ => []
  | _ :: t, 0 => v :: t
  | x :: t, S i' => x :: assign i' v t
  end.

(** [l[i], l[k] = l[k], l[i]] *)
Definition swap (i k : nat) (l : list nat) : list nat :=
  assign k (nth i l 0) (assign i (nth k l 0) l).

(** [l[i:] = l[i+1:] + l[i:i+1]] *)
Definition rotate (i : nat) (l : list nat) : list nat :=
  firstn i l ++ skipn (S i) l ++ firstn 1 (skipn i l).

(** The state of the generator: [indices] and [cycles]. *)
Definition stepper : Type := (list nat * list nat)%type.

Section Stepper.

Variables n r : nat.

(** The loop [for i in reversed(range(r))], entered with [i] positions
    left: the counter of the position is decreased; at zero the tail of
    [indices] is rotated, the counter reset, and the loop goes on to the
    position before; otherwise two positions are exchanged and the next
    tuple is ready.  [None] when the loop runs out: the generator ends. *)
Fixpoint advance (i : nat) (st : stepper) : option stepper :=
  match i with
  | 0 => None
  | S i' =>
      let (indices, cycles) := st in
      let c := nth i' cycles 0 - 1 in
      if Nat.eqb c 0
      then advance i' (rotate i' indices, assign i' (n - i') cycles)
      else Some (swap i' (n - c) indices, assign i' c cycles)
  end.

(** [indices[:r]] *)
Definition emit (st : stepper) : list nat := firstn r (fst st).

(** The tuples of positions yielded after the first, at most [fuel]. *)
Fixpoint steps (fuel : nat) (st : stepper) : list (list nat) :=
  match fuel with
  | 0 => []
  | S fuel' =>
      match advance r st with
      | None => []
      | Some st' => emit st' :: steps fuel' st'
      end
  end.

(** The tuples of positions in the order they are yielded: none when
    [r > n]; otherwise the first [r] positions, then the steps from
    [indices = range(n)], [cycles = range(n, n-r, -1)]. *)
Definition stepped : list (list nat) :=
  if Nat.ltb n r then []
  else
    let st := (seq 0 n, map (fun k => n - k) (seq 0 r)) in
    emit st :: steps (falling n r) st.

(** [reaches st E st']: the generator steps from [st] to [st'] and yields
    the tuples [E] on the way. *)
Inductive reaches : stepper -> list (list nat) -> stepper -> Prop :=
| reaches_here : forall st, reaches st [] st
| reaches_step : forall st st1 st' E,
    advance r st = Some st1 -> reaches st1 E st' ->
    reaches st (emit st1 :: E) st'.

(** The tuples that start with a selected item. *)
Definition block (d : nat) (s : nat * list nat) : list (list nat) :=
  map (cons (fst s)) (arrangements d (snd s)).

(** From a state whose counters from position [i] on are fresh, the
    generator yields the remaining arrangements of the tail of [indices]
    behind the fixed first [i] positions, and then moves on as from the
    state it started in at the position before. *)
Definition level_ok (d : nat) : Prop :=
  forall i pre T cyc,
    i + d = r -> length pre = i -> i + length T = n -> length cyc = r ->
    (forall k, i <= k < r -> nth k cyc 0 = n - k) ->
    exists st',
      reaches (pre ++ T, cyc) (map (app pre) (tl (arrangements d T))) st' /\
      advance r st' = advance i (pre ++ T, cyc).

End Stepper.

(** [itertools.permutations(pool, r)] *)
Definition permutations {A : Type} (pool : list A) (r : nat) : list (list A) :=
  map (tuple_of pool) (stepped (length pool) r).

(** Lexicographic comparison of tuples under an order [R] of the items. *)
Inductive lex_lt {A : Type} (R : A -> A -> Prop) : list A -> list A -> Prop :=
| lex_lt_nil : forall y l, lex_lt R [] (y :: l)
| lex_lt_head : forall x y l1 l2, R x y -> lex_lt R (x :: l1) (y :: l2)
| lex_lt_tail : forall x l1 l2, lex_lt R l1 l2 -> lex_lt R (x :: l1) (x :: l2).

(** [before pool x y]: [x] stands at an earlier position of [pool] than [y]. *)
Definition before {A : Type} (pool : list A) (x y : A) : Prop :=
  exists i j, i < j /\ nth_error pool i = Some x /\ nth_error pool j = Some y.

End Generator.

(** ** The evaluator and the run *)

Module Engine.

Import Generator.

Local Open Scope string_scope.

(** *** Phrase normalisation

    Words are modelled as strings of 7-bit characters; on these [lower] and
    [strip] are Python's [str.lower] and [str.strip]. *)

Definition lower_char (c : ascii) : ascii :=
  let n := nat_of_ascii c in
  if andb (Nat.leb 65 n) (Nat.leb n 90) then ascii_of_nat (n + 32) else c.

Fixpoint lower (s : string) : string :=
  match s with
  | EmptyString => EmptyString
  | String c s' => String (lower_char c) (lower s')
  end.

(** The white space [str.strip] removes: tab, line feed, vertical tab, form
    feed, carriage return, the four separators 28 to 31, and the space. *)
Definition is_space (c : ascii) : bool :=
  let n := nat_of_ascii c in
  orb (andb (Nat.leb 9 n) (Nat.leb n 13))
      (orb (andb (Nat.leb 28 n) (Nat.leb n 31)) (Nat.eqb n 32)).

Fixpoint lstrip (s : string) : string :=
  match s with
  | EmptyString => EmptyString
  | String c s' => if is_space c then lstrip s' else s
  end.

Fixpoint rstrip (s : string) : string :=
  match s with
  | EmptyString => EmptyString
  | String c s' =>
      match rstrip s' with
      | EmptyString => if is_space c then EmptyString else String c EmptyString
      | r => String c r
      end
  end.

Definition strip (s : string) : string := rstrip (lstrip s).

(** [" ".join(map(lambda x: x.lower().strip(), seeds))] *)
Definition normalize (seeds : list string) : string :=
  String.concat " " (map (fun x => strip (lower x)) seeds).

(** *** The derivation collaborator

    [CryptoWallet(seeds).get_trx_address()] is outside this file: it is
    taken as a function of the phrase that either yields an address or
    raises, a [ValueError] or some other [Exception]. *)
Inductive derivation : Type :=
| Derived (address : string)
| RaisesValueError
| RaisesOther (e : string).

(** What [process] returns: the flag and the two-item list, which is
    [[seeds, address]] or [[None, None]]. *)
Definition verdict : Type := (bool * (option string * option string))%type.

Definition no_match : verdict := (false, (None, None)).

(** [str(address) in target_address] *)
Definition member (address : string) (target_address : list string) : bool :=
  existsb (String.eqb address) target_address.

(** How a call of [process] in a worker process can fail to return: it
    raises an exception [e] that leaves [process] (the worker reports the
    task as failed), or it ends the worker process (a crash, a kill, or an
    exception that is no [Exception], which the loop of the worker does
    not catch). *)
Inductive failure : Type :=
| Raises (e : string)
| Dies.

(** Exceptions that reach the caller of [start]: a [ValueError] of the
    start-up, or the exception of a worker call, of whatever class, that
    [AsyncResult.get] raises again.  When several tasks of a batch have
    failed, the pool keeps the failure that was reported first, which
    depends on the timing of the workers: [Reraised es] lists the
    exceptions of the failed tasks, in the order of the batch, and stands
    for the one of them that arrived first. *)
Inductive exn : Type :=
| ValueError (msg : string)
| Reraised (es : list string).

(** Calls of [update_status_func]. *)
Inductive status : Type :=
| Starting
| Checking (process_count num_processes : Z).

(** The world the run acts on.  [progress] is the value stored under
    ["progress"] in the configuration file and [csv] the rows of
    [found_wallets.csv]; the other fields log what the coordinating
    process did: the values handed to [save_config], the calls of the two
    callbacks, the batches submitted to the pool and the batches whose
    results were collected.  The calls of the logger are left out, and so
    is the terminal: what a call prints is given with [process], and the
    order in which the lines of several workers appear is not determined
    by the code. *)
Record world : Type := {
  progress : Z;
  csv : list (string * string);
  saves : list Z;
  statuses : list status;
  listed : list (string * string);
  dispatched : list (list (list string));
  resolved : list (list (list string))
}.

Definition header : string * string := ("Seed Phrase", "TRX Address").

(** How a run ends: it returns, an exception leaves [start], or it does
    not end at all: [results.wait()] never returns, the run hangs in the
    world [w]. *)
Inductive outcome : Type :=
| Completed (w : world)
| Raised (e : exn) (w : world)
| Hangs (w : world).

Definition final (o : outcome) : world :=
  match o with Completed w => w | Raised _ w => w | Hangs w => w end.

(** [sys.maxsize], on a 64-bit build of the interpreter. *)
Definition maxsize : Z := (2 ^ 63 - 1)%Z.

(** *** [int(start_from / chunk_size)]

    The division of two integers yields the double nearest to their
    quotient: 53 significant bits, ties to the even mantissa.  For
    [0 < a] and [0 < b], [truediv a b] is that double as a pair [(m, e)]
    of value [m * 2^e], where [2^52 <= m <= 2^53]; the range of the
    exponent is left unbounded, which makes no difference to the integer
    part of a quotient below 2^1024.  The run divides a start rank that
    [islice] has accepted by a positive batch size. *)

(** The integer nearest to [n / d] for [0 < d], the even one of two. *)
Definition nearest (n d : Z) : Z :=
  let q := (n / d)%Z in
  match (2 * (n mod d) ?= d)%Z with
  | Lt => q
  | Gt => (q + 1)%Z
  | Eq => if Z.even q then q else (q + 1)%Z
  end.

(** The [k] with [2^k <= a / b < 2^(k+1)]. *)
Definition exponent (a b : Z) : Z :=
  let k := (Z.log2 a - Z.log2 b)%Z in
  if (a * 2 ^ Z.max 0 (- k) <? b * 2 ^ Z.max 0 k)%Z then (k - 1)%Z else k.

Definition truediv (a b : Z) : Z * Z :=
  if (a =? 0)%Z then (0%Z, 0%Z)
  else
    let e := (exponent a b - 52)%Z in
    (nearest (a * 2 ^ Z.max 0 (- e)) (b * 2 ^ Z.max 0 e), e).

(** [int(x)] for a double [x >= 0]: the fraction is dropped. *)
Definition int_of (x : Z * Z) : Z :=
  let (m, e) := x in
  if (0 <=? e)%Z then (m * 2 ^ e)%Z else (m / 2 ^ (- e))%Z.

(** The candidates whose results were collected, in order. *)
Definition evaluated (w : world) : list (list string) := concat (resolved w).

(** What the pool has to say on a batch: the results of its calls, the
    exceptions of its failed tasks, or nothing, ever. *)
Inductive report : Type :=
| Results (process_results : list verdict)
| Failed (es : list string)
| Lost.

(** The number of calls in a task, for a batch of [length] calls and a pool
    of [processes] workers: [divmod(length, processes * 4)], rounded up. *)
Definition task_size (length processes : Z) : Z :=
  let chunksize := (length / (processes * 4))%Z in
  let extra := (length mod (processes * 4))%Z in
  if (extra =? 0)%Z then chunksize else (chunksize + 1)%Z.

(** The report on a batch from the ends of its tasks, in the order of the
    batch. *)
Fixpoint gather (ends : list (failure + list verdict)) : report :=
  match ends with
  | [] => Results []
  | task_end :: rest =>
      match task_end, gather rest with
      | _, Lost => Lost
      | inl Dies, _ => Lost
      | inl (Raises e), Results _ => Failed [e]
      | inl (Raises e), Failed es => Failed (e :: es)
      | inr vs, Results vs' => Results (vs ++ vs')
      | inr _, Failed es => Failed es
      end
  end.

Section Run.

Variable derive : string -> derivation.

(** [abnormal seeds] tells whether the call of [process] on [seeds] fails
    to return in its worker, and how. *)
Variable abnormal : list string -> option failure.

(** [WalletFinder.process], with the lines it prints. *)
Definition process (seeds : list string) (target_address : list string)
  : verdict * list string :=
  let seeds := normalize seeds in
  match derive seeds with
  | Derived address =>
      if member address target_address
      then ((true, (Some seeds, Some address)), [])
      else (no_match, [])
  | RaisesValueError => (no_match, [])
  | RaisesOther e => (no_match, [e])
  end.

(** One task of the pool, [starmapstar] on some consecutive calls of a
    batch: the calls are made in order, the first call that fails ends the
    task, and the calls after it are not made. *)
Fixpoint task (target_address : list string) (calls : list (list string))
  : failure + list verdict :=
  match calls with
  | [] => inr []
  | seeds :: rest =>
      match abnormal seeds with
      | Some f => inl f
      | None =>
          match task target_address rest with
          | inl f => inl f
          | inr vs => inr (fst (process seeds target_address) :: vs)
          end
      end
  end.

(** [pool.starmap_async(...)], [results.wait()] and [results.get()] on a
    batch.  The batch is cut into tasks of [task_size] calls, which the
    workers take one by one.  The pool waits until every task has been
    reported, and a task whose worker has died is never reported; then
    [get] returns the results in the order of the batch, or raises the
    exception of a failed task. *)
Definition starmap (num_processes : Z) (target_address : list string)
  (chunk : list (list string)) : report :=
  let chunksize := task_size (Z.of_nat (List.length chunk)) num_processes in
  gather (map (task target_address) (chunked chunk (Z.to_nat chunksize))).

(** The loop over [process_results]: each success is appended to the CSV
    file and passed to [update_list_func]. *)
Fixpoint record (process_results : list verdict) (w : world) : world :=
  match process_results with
  | [] => w
  | (true, (Some seeds, Some address)) :: rest =>
      record rest
        {| progress := progress w;
           csv := csv w ++ [(seeds, address)];
           saves := saves w;
           statuses := statuses w;
           listed := listed w ++ [(seeds, address)];
           dispatched := dispatched w;
           resolved := resolved w |}
  | _ :: rest => record rest w
  end.

(** [config["progress"] = v; save_config(config)] *)
Definition checkpoint (v : Z) (w : world) : world :=
  {| progress := v;
     csv := csv w;
     saves := saves w ++ [v];
     statuses := statuses w;
     listed := listed w;
     dispatched := dispatched w;
     resolved := resolved w |}.

(** The status call and the submission of the batch. *)
Definition dispatch (s : status) (chunk : list (list string)) (w : world) : world :=
  {| progress := progress w;
     csv := csv w;
     saves := saves w;
     statuses := statuses w ++ [s];
     listed := listed w;
     dispatched := dispatched w ++ [chunk];
     resolved := resolved w |}.

(** The results of the batch have been collected. *)
Definition collect (chunk : list (list string)) (w : world) : world :=
  {| progress := progress w;
     csv := csv w;
     saves := saves w;
     statuses := statuses w;
     listed := listed w;
     dispatched := dispatched w;
     resolved := resolved w ++ [chunk] |}.

(** One turn of the loop of [start], on the batch [chunk] numbered [index]:
    it completes in a new world, or it ends the run. *)
Definition batch (num_processes chunk_size : Z) (target_address : list string)
  (w : world) (ic : Z * list (list string)) : outcome :=
  let (index, chunk) := ic in
  let process_count := ((index + 1) * chunk_size)%Z in
  let w := dispatch (Checking process_count num_processes) chunk w in
  match starmap num_processes target_address chunk with
  | Lost => Hangs w
  | Failed es => Raised (Reraised es) w
  | Results process_results =>
      let w := record process_results (collect chunk w) in
      Completed (if (index mod 10 =? 0)%Z
                 then checkpoint ((index + 1) * chunk_size)%Z w
                 else w)
  end.

Fixpoint batches (num_processes chunk_size : Z) (target_address : list string)
  (w : world) (ics : list (Z * list (list string))) : outcome :=
  match ics with
  | [] => Completed w
  | ic :: rest =>
      match batch num_processes chunk_size target_address w ic with
      | Completed w' => batches num_processes chunk_size target_address w' rest
      | ended => ended
      end
  end.

(** The state in which the loop is entered: the first status call, and the
    CSV file cut back to its header unless the run resumes. *)
Definition setup (resume : bool) (w : world) : world :=
  {| progress := progress w;
     csv := if resume then csv w else [header];
     saves := saves w;
     statuses := statuses w ++ [Starting];
     listed := listed w;
     dispatched := dispatched w;
     resolved := resolved w |}.

(** The batches of a run and their numbers:
    [enumerate(chunked(islice(combinations, start_from, None), chunk_size),
               start=int(start_from / chunk_size) - 1)],
    for a [start_from] that [islice] accepts. *)
Definition schedule (L : nat) (wordlist : list string) (start_from chunk_size : Z)
  : list (Z * list (list string)) :=
  enumerate (chunked (islice (permutations wordlist L) (Z.to_nat start_from))
                     (Z.to_nat chunk_size))
            (int_of (truediv start_from chunk_size) - 1).

(** The body of [WalletFinder.start] for phrases of [L] words, on a machine
    with [num_processes] cores, stopped at the batch boundary after
    [limit] batches when [limit] is given.  [Pool] raises [ValueError]
    for less than one process, and [islice] for a start that is negative
    or above [sys.maxsize]. *)
Definition start_upto (limit : option nat) (L : nat) (num_processes : Z)
  (wordlist target_address : list string) (resume : bool) (w : world) : outcome :=
  let start_from := if resume then progress w else 0%Z in
  let w := setup resume w in
  if (num_processes <? 1)%Z
  then Raised (ValueError "Number of processes must be at least 1") w
  else
    let chunk_size := (num_processes * 1000)%Z in
    if ((start_from <? 0) || (maxsize <? start_from))%Z
    then Raised (ValueError "Indices for islice() must be None or an integer: 0 <= x <= sys.maxsize.") w
    else
      let ics := schedule L wordlist start_from chunk_size in
      batches num_processes chunk_size target_address w
        (match limit with Some j => firstn j ics | None => ics end).

Definition start_with : nat -> Z -> list string -> list string -> bool -> world -> outcome :=
  start_upto None.

(** [WalletFinder.start]: the phrase length is the constant 12. *)
Definition start : Z -> list string -> list string -> bool -> world -> outcome :=
  start_with 12.

End Run.

(** No call fails abnormally. *)
Definition no_fault : list string -> option failure := fun _ => None.

(** A batch no call of which fails abnormally. *)
Definition sound (abnormal : list string -> option failure)
  (chunk : list (list string)) : Prop :=
  Forall (fun seeds => abnormal seeds = None) chunk.

(** A batch some call of which fails abnormally. *)
Definition failing (abnormal : list string -> option failure)
  (chunk : list (list string)) : Prop :=
  Exists (fun seeds => abnormal seeds <> None) chunk.

(** [stopped abnormal bad o w]: the run has ended in the batch [bad],
    leaving the world [w].  Either it hangs, a call of the batch having
    ended its worker; or it raises the exception of a failed task of the
    batch, every candidate for which is the exception of a call of the
    batch. *)
Definition stopped (abnormal : list string -> option failure)
  (bad : list (list string)) (o : outcome) (w : world) : Prop :=
  (o = Hangs w /\ exists seeds, In seeds bad /\ abnormal seeds = Some Dies) \/
  (exists es,
     o = Raised (Reraised es) w /\ es <> [] /\
     forall e, In e es ->
       exists seeds, In seeds bad /\ abnormal seeds = Some (Raises e)).

(** The batches of a run, without their numbers. *)
Definition plan (L : nat) (wordlist : list string) (start_from chunk_size : Z)
  : list (list (list string)) :=
  chunked (islice (permutations wordlist L) (Z.to_nat start_from))
          (Z.to_nat chunk_size).

(** The batches a run goes through when it is stopped after [limit]. *)
Definition upto (limit : option nat) (chunks : list (list (list string)))
  : list (list (list string)) :=
  match limit with Some j => firstn j chunks | None => chunks end.

(** The world before a run: the stored progress, the CSV file, no log. *)
Definition initial (p : Z) (rows : list (string * string)) : world :=
  {| progress := p; csv := rows; saves := []; statuses := []; listed := [];
     dispatched := []; resolved := [] |}.

(** *** What a run without abnormal failure leaves behind *)

(** The match records of a list of candidates: one for each candidate whose
    derived address is in the target set. *)
Definition matches (derive : string -> derivation) (target_address : list string)
  (cands : list (list string)) : list (string * string) :=
  flat_map (fun seeds =>
              match derive (normalize seeds) with
              | Derived address =>
                  if member address target_address
                  then [(normalize seeds, address)] else []
              | _ => []
              end) cands.

(** The numbers [i0, i0 + 1, ...] of [n] consecutive batches. *)
Fixpoint numbers (i0 : Z) (n : nat) : list Z :=
  match n with
  | 0 => []
  | S n' => i0 :: numbers (i0 + 1) n'
  end.

(** The values the checkpoints of the batches numbered [indices] write: batch [i]
    writes [(i + 1) * chunk_size], and only when [i] is a multiple of 10. *)
Definition marks (chunk_size : Z) (indices : list Z) : list Z :=
  map (fun i => ((i + 1) * chunk_size)%Z)
      (filter (fun i => (i mod 10 =? 0)%Z) indices).

(** The world after the batches [chunks], numbered from [i0], have been
    processed in [w]. *)
Definition after (derive : string -> derivation) (num_processes chunk_size : Z)
  (target_address : list string) (i0 : Z) (chunks : list (list (list string)))
  (w : world) : world :=
  let indices := numbers i0 (List.length chunks) in
  {| progress := last (marks chunk_size indices) (progress w);
     csv := csv w ++ matches derive target_address (concat chunks);
     saves := saves w ++ marks chunk_size indices;
     statuses := statuses w ++
       map (fun i => Checking ((i + 1) * chunk_size)%Z num_processes) indices;
     listed := listed w ++ matches derive target_address (concat chunks);
     dispatched := dispatched w ++ chunks;
     resolved := resolved w ++ chunks |}.

(** *** The evaluator contract, in the words of the specification

    [evaluate(candidate, targetSet)] answers [Matched(identifier)],
    [NotMatched] or [Invalid]. *)
Inductive evaluation : Type :=
| Matched (identifier : string)
| NotMatched
| Invalid.

Definition evaluate (derive : string -> derivation) (candidate : list string)
  (targetSet : list string) : evaluation :=
  match derive (normalize candidate) with
  | Derived identifier =>
      if member identifier targetSet then Matched identifier else NotMatched
  | _ => Invalid
  end.

(** What [process] returns for each answer of the contract. *)
Definition verdict_of (phrase : string) (e : evaluation) : verdict :=
  match e with
  | Matched identifier => (true, (Some phrase, Some identifier))
  | NotMatched => no_match
  | Invalid => no_match
  end.

(** *** Collaborators and inputs of the scenarios *)

(** A derivation that rejects every phrase. *)
Definition rejects_all : string -> derivation := fun _ => RaisesValueError.

(** A derivation that maps the phrase ["a b c"] to the address ["X"] and
    rejects every other phrase. *)
Definition abc_to_X : string -> derivation :=
  fun phrase => if String.eqb phrase "a b c" then Derived "X" else RaisesValueError.

(** A derivation that accepts every phrase and answers the address ["Y"]. *)
Definition all_to_Y : string -> derivation := fun _ => Derived "Y".


(** Workers in which the call on the candidate [g, f, e, d, c] raises,
    every other call returning. *)
Definition fails_on_gfedc : list string -> option failure :=
  fun seeds =>
    if String.eqb (String.concat " " seeds) "g f e d c"
    then Some (Raises "boom") else None.

(** Workers that the call on the candidate [d, c, b] ends, every other
    call returning. *)
Definition dies_on_dcb : list string -> option failure :=
  fun seeds =>
    if String.eqb (String.concat " " seeds) "d c b" then Some Dies else None.

Definition abcd : list string := ["a"; "b"; "c"; "d"].

Definition abc : list string := ["a"; "b"; "c"].

Definition abcdefg : list string := ["a"; "b"; "c"; "d"; "e"; "f"; "g"].

Definition twelve : list string :=
  ["a"; "b"; "c"; "d"; "e"; "f"; "g"; "h"; "i"; "j"; "k"; "l"].

Definition only_X : list string := ["X"].

(** The words of [abc] in other case and with white space around them. *)
Definition padded : list string := [" A"; "b  "; "C"].

(** The start ranks below 2^53: they are indices that [islice] accepts,
    and the integer part of the floating-point quotient
    [start_from / chunk_size] is the exact quotient. *)
Definition in_range (start_from : Z) : Prop := (0 <= start_from < 2 ^ 53)%Z.

(** *** The constructor

    [WalletFinder.__init__] acts on the CSV file alone: [None] is the
    missing file, [Some rows] the file with its rows.  A missing file is
    created with the header row; a file that exists is left as it is. *)
Definition init (file : option (list (string * string)))
  : option (list (string * string)) :=
  match file with
  | None => Some [header]
  | Some rows => Some rows
  end.

(** The rows [start] finds in the CSV file: opening a missing file for
    appending creates it empty. *)
Definition opened (file : option (list (string * string)))
  : list (string * string) :=
  match file with
  | None => []
  | Some rows => rows
  end.

End Engine.

(** * Properties *)

Import Generator Engine.

(** ** Lists *)

Section ListFacts.

Context {A : Type}.

Lemma flat_map_length_const (B : Type) (f : B -> list A) (k : nat) (l : list B) :
  (forall x, In x l -> length (f x) = k) ->
  length (flat_map f l) = length l * k.
Proof.
  induction l as [|b l IH]; intros H; simpl; [reflexivity|].
  rewrite length_app, H by (left; reflexivity).
  rewrite IH; [reflexivity|].
  intros x Hx. apply H. right. exact Hx.
Qed.

Lemma StronglySorted_app_iff (R : A -> A -> Prop) (l1 l2 : list A) :
  StronglySorted R (l1 ++ l2) <->
  StronglySorted R l1 /\ StronglySorted R l2 /\
  (forall a b, In a l1 -> In b l2 -> R a b).
Proof.
  induction l1 as [|x l1 IH]; simpl.
  - split.
    + intros H. repeat split; [constructor | exact H | intros a b []].
    + intros (_ & H & _). exact H.
  - split.
    + intros H. inversion H as [|? ? Hs Hf]; subst.
      apply IH in Hs. destruct Hs as (H1 & H2 & H12).
      rewrite Forall_app in Hf. destruct Hf as [Hf1 Hf2].
      repeat split.
      * constructor; assumption.
      * exact H2.
      * intros a b [<- | Ha] Hb.
        -- rewrite Forall_forall in Hf2. apply Hf2, Hb.
        -- apply H12; assumption.
    + intros (H1 & H2 & H12).
      inversion H1 as [|? ? Hs Hf]; subst.
      constructor.
      * apply IH. repeat split; try assumption.
        intros a b Ha Hb. apply H12; [right|]; assumption.
      * rewrite Forall_app. split; [exact Hf|].
        rewrite Forall_forall. intros b Hb. apply H12; [left; reflexivity | exact Hb].
Qed.

Lemma StronglySorted_map (B : Type) (R : A -> A -> Prop) (S : B -> B -> Prop)
  (f : A -> B) (l : list A) :
  (forall a b, R a b -> S (f a) (f b)) ->
  StronglySorted R l -> StronglySorted S (map f l).
Proof.
  intros Hf H. induction H as [|x l Hs IH Hall]; simpl; constructor.
  - exact IH.
  - rewrite Forall_forall in *. intros y Hy.
    apply in_map_iff in Hy. destruct Hy as (a & <- & Ha).
    apply Hf, Hall, Ha.
Qed.

Lemma StronglySorted_NoDup (R : A -> A -> Prop) (l : list A) :
  (forall x, In x l -> ~ R x x) ->
  StronglySorted R l -> NoDup l.
Proof.
  intros Hirr H. induction H as [|x l Hs IH Hall]; constructor.
  - intros Hx. rewrite Forall_forall in Hall.
    apply (Hirr x); [left; reflexivity | apply Hall, Hx].
  - apply IH. intros y Hy. apply Hirr. right. exact Hy.
Qed.

Lemma StronglySorted_weaken (R S : A -> A -> Prop) (l : list A) :
  (forall a b, In a l -> In b l -> R a b -> S a b) ->
  StronglySorted R l -> StronglySorted S l.
Proof.
  intros Hw H. induction H as [|x l Hs IH Hall]; constructor.
  - apply IH. intros a b Ha Hb. apply Hw; right; assumption.
  - rewrite Forall_forall in *. intros y Hy.
    apply Hw; [left; reflexivity | right; exact Hy | apply Hall, Hy].
Qed.

End ListFacts.

(** ** The permutation space *)

Section PermutationSpace.

Context {A : Type}.

Lemma selections_length (l pre : list A) :
  length (selections pre l) = length l.
Proof.
  revert pre. induction l as [|x t IH]; intros pre; simpl; [reflexivity|].
  now rewrite IH.
Qed.

Lemma selections_In (l pre : list A) (x : A) (rest : list A) :
  In (x, rest) (selections pre l) ->
  exists l1 l2, l = l1 ++ x :: l2 /\ rest = pre ++ l1 ++ l2.
Proof.
  revert pre. induction l as [|y t IH]; intros pre; simpl; [intros []|].
  intros [Heq | Hin].
  - inversion Heq; subst. exists [], t. split; reflexivity.
  - apply IH in Hin. destruct Hin as (l1 & l2 & -> & ->).
    exists (y :: l1), l2. split; [reflexivity|].
    now rewrite <- app_assoc.
Qed.

Lemma falling_fact (r n : nat) :
  r <= n -> falling n r * fact (n - r) = fact n.
Proof.
  revert n. induction r as [|r IH]; intros n Hr; simpl.
  - rewrite Nat.sub_0_r. lia.
  - destruct n as [|m]; [lia|].
    replace (S m - 1) with m by lia.
    replace (S m - S r) with (m - r) by lia.
    rewrite <- Nat.mul_assoc, IH by lia.
    reflexivity.
Qed.

Lemma falling_zero (r n : nat) : n < r -> falling n r = 0.
Proof.
  revert n. induction r as [|r IH]; intros n Hr; simpl; [lia|].
  destruct n as [|m]; [reflexivity|].
  rewrite IH by lia. lia.
Qed.

Lemma arrangements_length (r : nat) (pool : list A) :
  length (arrangements r pool) = falling (length pool) r.
Proof.
  revert pool. induction r as [|r IH]; intros pool; simpl; [reflexivity|].
  rewrite flat_map_length_const with (k := falling (length pool - 1) r).
  - now rewrite selections_length.
  - intros [x rest] Hin. simpl.
    rewrite length_map, IH.
    apply selections_In in Hin. destruct Hin as (l1 & l2 & -> & ->).
    simpl. rewrite !length_app. simpl. f_equal. lia.
Qed.

Lemma arrangements_short (r : nat) (pool : list A) :
  length pool < r -> arrangements r pool = [].
Proof.
  intros H. apply length_zero_iff_nil.
  rewrite arrangements_length. now apply falling_zero.
Qed.

Lemma arrangements_count (r : nat) (pool : list A) :
  r <= length pool ->
  length (arrangements r pool) = fact (length pool) / fact (length pool - r).
Proof.
  intros H. rewrite arrangements_length.
  rewrite <- (falling_fact H).
  symmetry. apply Nat.div_mul.
  apply Nat.neq_0_lt_0, lt_O_fact.
Qed.

Lemma arrangements_In (r : nat) (pool c : list A) :
  In c (arrangements r pool) ->
  length c = r /\ incl c pool /\ (NoDup pool -> NoDup c).
Proof.
  revert pool c. induction r as [|r IH]; intros pool c; simpl.
  - intros [<- | []]. repeat split; [intros x [] | constructor].
  - rewrite in_flat_map. intros ([x rest] & Hsel & Hc). simpl in Hc.
    apply in_map_iff in Hc. destruct Hc as (c' & <- & Hc').
    apply selections_In in Hsel. destruct Hsel as (l1 & l2 & -> & ->).
    simpl in Hc'. apply IH in Hc'. destruct Hc' as (Hlen & Hincl & Hnd).
    repeat split.
    + simpl. now rewrite Hlen.
    + intros y [<- | Hy].
      * apply in_elt.
      * apply Hincl in Hy. apply in_app_or in Hy.
        apply in_or_app. destruct Hy; [left | right; right]; assumption.
    + intros Hpool. apply NoDup_remove in Hpool. destruct Hpool as [Hrest Hx].
      constructor; [|now apply Hnd].
      intros Hin. apply Hx, Hincl, Hin.
Qed.

Lemma lex_lt_irrefl (R : A -> A -> Prop) (l : list A) :
  (forall x, In x l -> ~ R x x) -> ~ lex_lt R l l.
Proof.
  induction l as [|x l IH]; intros Hirr H; inversion H; subst.
  - apply (Hirr x); [left; reflexivity | assumption].
  - apply IH; [|assumption]. intros y Hy. apply Hirr. right. exact Hy.
Qed.

Lemma blocks_sorted (R : A -> A -> Prop) (r : nat) :
  (forall pool, StronglySorted R pool ->
                StronglySorted (lex_lt R) (arrangements r pool)) ->
  forall l pre, StronglySorted R (pre ++ l) ->
  StronglySorted (lex_lt R)
    (flat_map (fun s => map (cons (fst s)) (arrangements r (snd s)))
              (selections pre l)).
Proof.
  intros IHr l. induction l as [|x t IH]; intros pre Hs; simpl; [constructor|].
  apply StronglySorted_app_iff. repeat split.
  - apply StronglySorted_map with (R := lex_lt R).
    + intros a b Hab. now apply lex_lt_tail.
    + apply IHr. apply StronglySorted_app_iff in Hs.
      destruct Hs as (Hpre & Hxt & Hcross). inversion Hxt; subst.
      apply StronglySorted_app_iff. repeat split; try assumption.
      intros a b Ha Hb. apply Hcross; [|right]; assumption.
  - apply IH. now rewrite <- app_assoc.
  - intros a b Ha Hb.
    apply in_map_iff in Ha. destruct Ha as (a' & <- & _).
    apply in_flat_map in Hb. destruct Hb as ([y rest] & Hsel & Hb).
    simpl in Hb. apply in_map_iff in Hb. destruct Hb as (b' & <- & _).
    apply lex_lt_head.
    apply selections_In in Hsel. destruct Hsel as (l1 & l2 & -> & _).
    apply StronglySorted_app_iff in Hs. destruct Hs as (_ & Hxt & _).
    inversion Hxt as [|? ? _ Hall]; subst.
    rewrite Forall_forall in Hall. apply Hall, in_elt.
Qed.

Lemma arrangements_sorted (R : A -> A -> Prop) (r : nat) (pool : list A) :
  StronglySorted R pool -> StronglySorted (lex_lt R) (arrangements r pool).
Proof.
  revert pool. induction r as [|r IH]; intros pool Hs; simpl.
  - repeat constructor.
  - apply blocks_sorted; assumption.
Qed.

Lemma before_sorted_from (pool l pre : list A) :
  pool = pre ++ l -> StronglySorted (before pool) l.
Proof.
  revert pre. induction l as [|x t IH]; intros pre Hpool; constructor.
  - apply (IH (pre ++ [x])). now rewrite <- app_assoc.
  - rewrite Forall_forall. intros y Hy.
    apply In_nth_error in Hy. destruct Hy as [k Hk].
    exists (length pre), (length pre + S k). subst pool. repeat split.
    + lia.
    + rewrite nth_error_app2 by lia. now rewrite Nat.sub_diag.
    + rewrite nth_error_app2 by lia.
      replace (length pre + S k - length pre) with (S k) by lia. exact Hk.
Qed.

Lemma before_irrefl (pool : list A) (x : A) : NoDup pool -> ~ before pool x x.
Proof.
  intros Hnd (i & j & Hij & Hi & Hj).
  assert (i = j); [|lia].
  apply (proj1 (NoDup_nth_error pool) Hnd).
  - apply nth_error_Some. congruence.
  - congruence.
Qed.

End PermutationSpace.

(** ** The generator steps through the permutation space *)

Lemma assign_split (pre rest : list nat) (x v : nat) :
  assign (length pre) v (pre ++ x :: rest) = pre ++ v :: rest.
Proof. induction pre as [|a pre IH]; simpl; [reflexivity|]. now rewrite IH. Qed.

Lemma nth_split (pre rest : list nat) (x : nat) :
  nth (length pre) (pre ++ x :: rest) 0 = x.
Proof. induction pre as [|a pre IH]; simpl; [reflexivity | exact IH]. Qed.

Lemma assign_length (i v : nat) (l : list nat) : length (assign i v l) = length l.
Proof.
  revert i. induction l as [|a l IH]; intros [|i]; simpl; try reflexivity.
  now rewrite IH.
Qed.

Lemma nth_assign_same (i v : nat) (l : list nat) :
  i < length l -> nth i (assign i v l) 0 = v.
Proof.
  revert i. induction l as [|a l IH]; intros [|i] H; simpl in *; try lia.
  apply IH. lia.
Qed.

Lemma nth_assign_other (i k v : nat) (l : list nat) :
  k <> i -> nth k (assign i v l) 0 = nth k l 0.
Proof.
  revert i k. induction l as [|a l IH]; intros [|i] [|k] H; simpl;
    try reflexivity; try lia.
  apply IH. lia.
Qed.

Lemma assign_assign (i v v' : nat) (l : list nat) :
  assign i v (assign i v' l) = assign i v l.
Proof.
  revert i. induction l as [|a l IH]; intros [|i]; simpl; try reflexivity.
  now rewrite IH.
Qed.

Lemma assign_same (i : nat) (l : list nat) :
  assign i (nth i l 0) l = l.
Proof.
  revert i. induction l as [|a l IH]; intros [|i]; simpl; try reflexivity.
  now rewrite IH.
Qed.

Lemma swap_split (pre A B : list nat) (x y : nat) :
  swap (length pre) (length pre + S (length A)) (pre ++ x :: A ++ y :: B)
  = pre ++ y :: A ++ x :: B.
Proof.
  unfold swap.
  assert (Hk : nth (length pre + S (length A)) (pre ++ x :: A ++ y :: B) 0 = y).
  { replace (pre ++ x :: A ++ y :: B) with ((pre ++ x :: A) ++ y :: B)
      by now rewrite <- app_assoc.
    replace (length pre + S (length A)) with (length (pre ++ x :: A))
      by (rewrite length_app; reflexivity).
    apply nth_split. }
  rewrite Hk, nth_split, assign_split.
  replace (pre ++ y :: A ++ y :: B) with ((pre ++ y :: A) ++ y :: B)
    by now rewrite <- app_assoc.
  replace (length pre + S (length A)) with (length (pre ++ y :: A))
    by (rewrite length_app; reflexivity).
  rewrite assign_split. now rewrite <- app_assoc.
Qed.

Lemma rotate_split (pre A : list nat) (x : nat) :
  rotate (length pre) (pre ++ x :: A) = pre ++ A ++ [x].
Proof.
  unfold rotate.
  rewrite firstn_app, firstn_all, Nat.sub_diag, firstn_0, app_nil_r.
  rewrite skipn_app, skipn_all2 by lia.
  replace (S (length pre) - length pre) with 1 by lia.
  rewrite skipn_app, skipn_all, Nat.sub_diag. reflexivity.
Qed.

Lemma arrangements_hd (A : Type) (d : nat) (T : list A) :
  d <= length T -> exists t, arrangements d T = firstn d T :: t.
Proof.
  revert T. induction d as [|d IH]; intros T Hd.
  - exists []. reflexivity.
  - destruct T as [|x T]; [simpl in Hd; lia|].
    destruct (IH T) as [t Ht]; [simpl in Hd; lia|].
    cbn [arrangements selections flat_map fst snd app firstn].
    rewrite Ht. cbn [map app]. eexists. reflexivity.
Qed.

Section StepperFacts.

Variables n r : nat.
Hypothesis fits : r <= n.

Lemma reaches_app (st st1 st2 : stepper) (E1 E2 : list (list nat)) :
  reaches n r st E1 st1 -> reaches n r st1 E2 st2 ->
  reaches n r st (E1 ++ E2) st2.
Proof.
  induction 1 as [|st sta st' E Hadv _ IH]; intros H2; [exact H2|].
  simpl. econstructor; [exact Hadv | now apply IH].
Qed.

Lemma steps_reaches (st st' : stepper) (E : list (list nat)) (fuel : nat) :
  reaches n r st E st' ->
  steps n r (length E + fuel) st = E ++ steps n r fuel st'.
Proof.
  induction 1 as [|st sta st' E Hadv _ IH]; [reflexivity|].
  simpl. rewrite Hadv, IH. reflexivity.
Qed.

Lemma steps_done (st : stepper) (fuel : nat) :
  advance n r st = None -> steps n r fuel st = [].
Proof. intros H. destruct fuel; simpl; [reflexivity|]. now rewrite H. Qed.

Lemma stage (d : nat) :
  level_ok n r d ->
  forall B A x i pre cyc,
    i + S d = r -> length pre = i -> i + length A + 1 + length B = n ->
    length cyc = r -> nth i cyc 0 = length B + 1 ->
    (forall k, i < k < r -> nth k cyc 0 = n - k) ->
    exists st',
      reaches n r (pre ++ x :: A ++ B, cyc)
              (map (app pre) (tl (flat_map (block d) (selections A (x :: B))))) st' /\
      advance n r st' = advance n i (pre ++ A ++ x :: B, assign i (n - i) cyc).
Proof.
  intros P B. induction B as [|y B IH]; intros A x i pre cyc Hr Hpre Hn Hcyc Hc Hfresh.
  - simpl length in *. rewrite app_nil_r.
    destruct (P (S i) (pre ++ [x]) A cyc) as (st1 & Hreach & Hadv).
    + lia.
    + rewrite length_app. simpl. lia.
    + lia.
    + exact Hcyc.
    + intros k Hk. apply Hfresh. lia.
    + rewrite <- app_assoc in Hreach, Hadv. cbn [app] in Hreach, Hadv.
      exists st1. split.
      * cbn [selections flat_map]. unfold block. cbn [fst snd].
        rewrite !app_nil_r.
        destruct (@arrangements_hd nat d A) as [t Ht]; [lia|].
        rewrite Ht in *. cbn [map tl] in *.
        rewrite map_map.
        erewrite map_ext; [exact Hreach|].
        intros p. now rewrite <- app_assoc.
      * rewrite Hadv. cbn [advance]. rewrite Hc.
        replace (0 + 1 - 1) with 0 by lia. cbn [Nat.eqb].
        subst i. rewrite rotate_split. reflexivity.
  - destruct (P (S i) (pre ++ [x]) (A ++ y :: B) cyc) as (st1 & Hreach & Hadv).
    + lia.
    + rewrite length_app. simpl. lia.
    + rewrite length_app. simpl in *. lia.
    + exact Hcyc.
    + intros k Hk. apply Hfresh. lia.
    + destruct (IH (A ++ [x]) y i pre (assign i (length B + 1) cyc))
        as (st' & Hreach' & Hadv').
      * exact Hr.
      * exact Hpre.
      * rewrite length_app. simpl in *. lia.
      * now rewrite assign_length.
      * apply nth_assign_same. lia.
      * intros k Hk. rewrite nth_assign_other by lia. apply Hfresh. exact Hk.
      * exists st'. split.
        -- rewrite <- app_assoc in Hreach, Hadv. cbn [app] in Hreach, Hadv.
           cbn [selections flat_map] in *. unfold block in *. cbn [fst snd] in *.
           destruct (@arrangements_hd nat d (A ++ y :: B)) as [t Ht];
             [rewrite length_app; simpl in *; lia|].
           destruct (@arrangements_hd nat d ((A ++ [x]) ++ B)) as [t' Ht'];
             [rewrite !length_app; simpl in *; lia|].
           rewrite Ht in *. rewrite Ht' in *. cbn [map tl app] in *.
           rewrite map_app. cbn [map].
           assert (Hstep : advance n r st1
                           = Some (pre ++ y :: (A ++ [x]) ++ B,
                                   assign i (length B + 1) cyc)).
           { rewrite Hadv. cbn [advance]. rewrite Hc. simpl length.
             replace (S (length B) + 1 - 1) with (S (length B)) by lia.
             cbn [Nat.eqb]. f_equal. f_equal.
             - rewrite <- !app_assoc. cbn [app].
               replace (n - S (length B)) with (length pre + S (length A))
                 by (simpl in Hn; lia).
               subst i. apply swap_split.
             - f_equal. lia. }
           eapply reaches_app.
           ++ rewrite map_map.
              erewrite map_ext; [exact Hreach|].
              intros p. now rewrite <- app_assoc.
           ++ replace (pre ++ y :: firstn d ((A ++ [x]) ++ B))
                with (emit r (pre ++ y :: (A ++ [x]) ++ B, assign i (length B + 1) cyc)).
              ** econstructor; [exact Hstep | exact Hreach'].
              ** unfold emit. cbn [fst]. rewrite firstn_app.
                 rewrite firstn_all2 by lia.
                 replace (r - length pre) with (S d) by lia. reflexivity.
        -- rewrite Hadv', assign_assign. rewrite <- !app_assoc. reflexivity.
Qed.

End StepperFacts.

Lemma levels (n r : nat) (d : nat) : r <= n -> level_ok n r d.
Proof.
  intros fits. induction d as [|d IH]; intros i pre T cyc Hr Hpre Hn Hcyc Hfresh.
  - exists (pre ++ T, cyc). split; [constructor|].
    replace i with r by lia. reflexivity.
  - destruct T as [|x T]; [simpl in Hn; lia|].
    destruct (@stage n r fits d IH T [] x i pre cyc) as (st' & Hreach & Hadv);
      try assumption.
    + simpl in *. lia.
    + rewrite Hfresh by lia. simpl in Hn. lia.
    + intros k Hk. apply Hfresh. lia.
    + exists st'. split; [exact Hreach|].
      rewrite Hadv. cbn [app]. rewrite <- (Hfresh i) by lia.
      now rewrite assign_same.
Qed.

Lemma initial_cycles (n r k : nat) :
  k < r -> nth k (map (fun j => n - j) (seq 0 r)) 0 = n - k.
Proof.
  intros Hk.
  rewrite nth_indep with (d' := (fun j => n - j) 0) by (rewrite length_map, length_seq; lia).
  rewrite map_nth, seq_nth by lia. reflexivity.
Qed.

(** The stepping algorithm enumerates the tuples of positions in
    lexicographic order. *)
Lemma stepped_arrangements (n r : nat) :
  stepped n r = arrangements r (seq 0 n).
Proof.
  unfold stepped. destruct (Nat.ltb_spec n r) as [Hlt | Hle].
  - symmetry. apply arrangements_short. now rewrite length_seq.
  - destruct (@levels n r r Hle 0 [] (seq 0 n) (map (fun k => n - k) (seq 0 r)))
      as (st' & Hreach & Hadv).
    + lia.
    + reflexivity.
    + now rewrite length_seq.
    + now rewrite length_map, length_seq.
    + intros k Hk. apply initial_cycles. lia.
    + cbn [app advance] in Hreach, Hadv.
      destruct (@arrangements_hd nat r (seq 0 n)) as [t Ht];
        [now rewrite length_seq|].
      pose proof (arrangements_length r (seq 0 n)) as Hlen.
      rewrite length_seq, Ht in Hlen. cbn [length] in Hlen.
      rewrite Ht in *. cbn [tl] in Hreach.
      rewrite map_id in Hreach.
      pose proof (steps_reaches 1 Hreach) as Hsteps.
      rewrite (@steps_done n r st' 1 Hadv), app_nil_r in Hsteps.
      replace (falling n r) with (length t + 1) by lia.
      rewrite Hsteps. reflexivity.
Qed.

Section Tuples.

Context {A B : Type}.
Variable f : A -> B.

Lemma selections_map (l pre : list A) :
  selections (map f pre) (map f l)
  = map (fun s => (f (fst s), map f (snd s))) (selections pre l).
Proof.
  revert pre. induction l as [|x t IH]; intros pre; simpl; [reflexivity|].
  rewrite <- map_app. f_equal.
  change [f x] with (map f [x]). rewrite <- map_app. apply IH.
Qed.

Lemma arrangements_map (r : nat) (l : list A) :
  arrangements r (map f l) = map (map f) (arrangements r l).
Proof.
  revert l. induction r as [|r IH]; intros l; [reflexivity|].
  cbn [arrangements].
  change (@nil B) with (map f []). rewrite selections_map.
  induction (selections [] l) as [|s sel IHsel]; [reflexivity|].
  cbn [map flat_map fst snd]. rewrite map_app, <- IHsel. f_equal.
  rewrite IH, !map_map. reflexivity.
Qed.

End Tuples.

Lemma tuple_of_map (A : Type) (pool : list A) (d : A) (idx : list nat) :
  (forall i, In i idx -> i < length pool) ->
  tuple_of pool idx = map (fun i => nth i pool d) idx.
Proof.
  unfold tuple_of. induction idx as [|i idx IH]; intros H; [reflexivity|].
  cbn [flat_map map]. rewrite IH by (intros k Hk; apply H; now right).
  destruct (nth_error pool i) as [x|] eqn:E.
  - now rewrite (nth_error_nth _ _ d E).
  - apply nth_error_None in E. specialize (H i (or_introl eq_refl)). lia.
Qed.

Lemma map_nth_seq (A : Type) (pool : list A) (d : A) :
  map (fun i => nth i pool d) (seq 0 (length pool)) = pool.
Proof.
  induction pool as [|x pool IH]; [reflexivity|].
  cbn [length seq map nth]. f_equal.
  rewrite <- seq_shift, map_map. exact IH.
Qed.

(** The tuples the stepping algorithm yields are the candidates. *)
Lemma permutations_arrangements (A : Type) (pool : list A) (r : nat) :
  permutations pool r = arrangements r pool.
Proof.
  unfold permutations. rewrite stepped_arrangements.
  destruct pool as [|d pool].
  - destruct r; reflexivity.
  - set (l := d :: pool).
    transitivity (map (map (fun i => nth i l d)) (arrangements r (seq 0 (length l)))).
    + apply map_ext_in. intros idx Hidx.
      apply tuple_of_map. intros i Hi.
      apply arrangements_In in Hidx. destruct Hidx as (_ & Hincl & _).
      apply Hincl in Hi. apply in_seq in Hi. lia.
    + now rewrite <- arrangements_map, map_nth_seq.
Qed.

(** The two runs the library documents: [permutations('ABCD', 2)] and
    [permutations(range(3))]. *)
Example permutations_ABCD_2 :
  permutations [1; 2; 3; 4] 2
  = [[1; 2]; [1; 3]; [1; 4]; [2; 1]; [2; 3]; [2; 4];
     [3; 1]; [3; 2]; [3; 4]; [4; 1]; [4; 2]; [4; 3]].
Proof. reflexivity. Qed.

Example permutations_range_3 :
  permutations [0; 1; 2] 3
  = [[0; 1; 2]; [0; 2; 1]; [1; 0; 2]; [1; 2; 0]; [2; 0; 1]; [2; 1; 0]].
Proof. reflexivity. Qed.

(** C6. For a pool of [n] pairwise different words and a phrase length
    [L <= n], the generator yields exactly [n! / (n - L)!] candidates; each
    is a sequence of [L] pairwise different items of the pool; no candidate
    occurs twice; and the candidates come in strictly increasing
    lexicographic order, items being compared by their position in the
    pool: the generator yields the permutation space of the
    specification, in its order. *)
Theorem permutation_space (pool : list string) (L : nat) :
  NoDup pool -> L <= length pool ->
  length (permutations pool L) = fact (length pool) / fact (length pool - L) /\
  Forall (fun c => length c = L /\ NoDup c /\ incl c pool) (permutations pool L) /\
  NoDup (permutations pool L) /\
  StronglySorted (lex_lt (before pool)) (permutations pool L) /\
  permutations pool L = arrangements L pool.
Proof.
  intros Hnd HL. rewrite permutations_arrangements.
  assert (Hsorted : StronglySorted (lex_lt (before pool)) (arrangements L pool)).
  { apply arrangements_sorted. now apply before_sorted_from with (pre := []). }
  repeat split.
  - now apply arrangements_count.
  - rewrite Forall_forall. intros c Hc.
    apply arrangements_In in Hc. destruct Hc as (Hlen & Hincl & Hc).
    repeat split; auto.
  - apply StronglySorted_NoDup with (R := lex_lt (before pool)); [|exact Hsorted].
    intros c _. apply lex_lt_irrefl. intros x _. now apply before_irrefl.
  - exact Hsorted.
Qed.

Lemma abcd_NoDup : NoDup abcd.
Proof.
  unfold abcd. repeat constructor; simpl; intuition discriminate.
Defined.

Lemma permutation_space_witness :
  length (permutations abcd 3) = fact 4 / fact (4 - 3) /\
  Forall (fun c => length c = 3 /\ NoDup c /\ incl c abcd) (permutations abcd 3) /\
  NoDup (permutations abcd 3) /\
  StronglySorted (lex_lt (before abcd)) (permutations abcd 3) /\
  permutations abcd 3 = arrangements 3 abcd.
Proof.
  apply (@permutation_space abcd 3).
  - exact abcd_NoDup.
  - simpl. lia.
Defined.

(** ** Skipping and batching *)

Section Slicing.

Context {A : Type}.

Lemma islice_at_skipn (it : list A) (i k : nat) :
  islice_at i (i + k) it = skipn k it.
Proof.
  revert i k. induction it as [|x t IH]; intros i k; simpl.
  - now destruct k.
  - destruct k as [|k].
    + rewrite Nat.add_0_r, Nat.eqb_refl. simpl. f_equal.
      specialize (IH (S i) 0). rewrite Nat.add_0_r in IH. exact IH.
    + destruct (Nat.eqb_spec i (i + S k)) as [E|_]; [lia|].
      simpl. replace (i + S k) with (S i + k) by lia. apply IH.
Qed.

Lemma islice_skipn (it : list A) (start : nat) :
  islice it start = skipn start it.
Proof. unfold islice. apply (islice_at_skipn it 0 start). Qed.

Lemma chunked_fuel_nil (fuel n : nat) : chunked_fuel fuel n (@nil A) = [].
Proof. destruct fuel; simpl; [reflexivity|]. now rewrite firstn_nil. Qed.

Lemma chunked_fuel_concat (fuel n : nat) (it : list A) :
  0 < n -> length it <= fuel -> concat (chunked_fuel fuel n it) = it.
Proof.
  intros Hn. revert it. induction fuel as [|fuel IH]; intros it Hfuel; simpl.
  - destruct it; [reflexivity | simpl in Hfuel; lia].
  - destruct (firstn n it) as [|y c] eqn:E.
    + destruct it as [|x t]; [reflexivity|].
      destruct n; [lia | discriminate].
    + simpl. rewrite IH.
      * rewrite app_comm_cons, <- E. apply firstn_skipn.
      * rewrite length_skipn. destruct it; [rewrite firstn_nil in E; discriminate|].
        simpl length in *. lia.
Qed.

Lemma chunked_concat (n : nat) (it : list A) :
  0 < n -> concat (chunked it n) = it.
Proof. intros Hn. apply chunked_fuel_concat; [exact Hn | apply Nat.le_refl]. Qed.

(** Enough fuel is as good as more fuel. *)
Lemma chunked_fuel_enough (fuel fuel' n : nat) (it : list A) :
  0 < n -> length it <= fuel -> length it <= fuel' ->
  chunked_fuel fuel n it = chunked_fuel fuel' n it.
Proof.
  intros Hn. revert fuel' it.
  induction fuel as [|fuel IH]; intros fuel' it H H'.
  - destruct it; [|simpl in H; lia]. now rewrite !chunked_fuel_nil.
  - destruct it as [|x t]; [now rewrite !chunked_fuel_nil|].
    destruct fuel' as [|fuel']; [simpl in H'; lia|].
    simpl. destruct n as [|n]; [lia|]. simpl.
    f_equal. apply IH; rewrite length_skipn; simpl length in *; lia.
Qed.


(** Every batch but the last is full. *)
Lemma chunked_fuel_full (fuel n : nat) (it : list A) (j : nat) :
  j < length (chunked_fuel fuel n it) ->
  length (concat (firstn j (chunked_fuel fuel n it))) = j * n.
Proof.
  revert it j. induction fuel as [|fuel IH]; intros it j; simpl; [lia|].
  destruct (firstn n it) as [|y c] eqn:E; simpl; [lia|].
  destruct j as [|j]; [reflexivity|]. intros Hj. simpl.
  rewrite length_app, IH by lia.
  assert (Hc : length (y :: c) = n); [|simpl in Hc; lia].
  rewrite <- E, length_firstn.
  destruct (Nat.le_gt_cases n (length it)) as [|Hshort]; [lia|].
  rewrite skipn_all2, chunked_fuel_nil in Hj by lia.
  simpl in Hj. lia.
Qed.

Lemma chunked_prefix_length (n : nat) (it : list A) (j : nat) :
  0 < n ->
  j * n <= length (concat (firstn (S j) (chunked it n))) \/
  length (chunked it n) <= j.
Proof.
  intros Hn.
  destruct (Nat.le_gt_cases (length (chunked it n)) j) as [|Hj]; [now right|left].
  unfold chunked in *.
  rewrite <- (chunked_fuel_full _ _ _ Hj).
  rewrite <- (firstn_skipn j (firstn (S j) _)).
  rewrite firstn_firstn, Nat.min_l by lia.
  rewrite concat_app, length_app. lia.
Qed.

Lemma enumerate_firstn (it : list A) (start : Z) (j : nat) :
  firstn j (enumerate it start) = enumerate (firstn j it) start.
Proof.
  revert start j. induction it as [|x t IH]; intros start j.
  - now rewrite !firstn_nil.
  - destruct j; simpl; [reflexivity|]. now rewrite IH.
Qed.

Lemma enumerate_snd (it : list A) (start : Z) :
  map snd (enumerate it start) = it.
Proof.
  revert start. induction it as [|x t IH]; intros start; simpl; [reflexivity|].
  now rewrite IH.
Qed.

Lemma enumerate_fst (it : list A) (start : Z) :
  map fst (enumerate it start) = numbers start (length it).
Proof.
  revert start. induction it as [|x t IH]; intros start; simpl; [reflexivity|].
  now rewrite IH.
Qed.

End Slicing.

(** ** One batch, and a run of batches *)

Lemma last_nonempty (A : Type) (l : list A) (x d d' : A) :
  last (x :: l) d = last (x :: l) d'.
Proof.
  revert x. induction l as [|y l IH]; intros x; [reflexivity|].
  change (last (y :: l) d = last (y :: l) d'). apply IH.
Qed.

Lemma last_app_default (A : Type) (l1 l2 : list A) (d : A) :
  last (l1 ++ l2) d = last l2 (last l1 d).
Proof.
  induction l1 as [|x l1 IH]; [reflexivity|].
  destruct l1 as [|y l1].
  - destruct l2 as [|z l2]; [reflexivity|].
    change (last (z :: l2) d = last (z :: l2) x). apply last_nonempty.
  - change (last ((y :: l1) ++ l2) d = last l2 (last (y :: l1) d)).
    exact IH.
Qed.

Lemma marks_app (chunk_size : Z) (l1 l2 : list Z) :
  marks chunk_size (l1 ++ l2) = marks chunk_size l1 ++ marks chunk_size l2.
Proof. unfold marks. now rewrite filter_app, map_app. Qed.

Lemma numbers_In (n : nat) (i0 i : Z) :
  In i (numbers i0 n) <-> (i0 <= i < i0 + Z.of_nat n)%Z.
Proof.
  revert i0. induction n as [|n IH]; intros i0; simpl numbers.
  - simpl. lia.
  - simpl In. rewrite IH. lia.
Qed.

Lemma numbers_snoc (n : nat) (i0 : Z) :
  numbers i0 (S n) = numbers i0 n ++ [(i0 + Z.of_nat n)%Z].
Proof.
  revert i0. induction n as [|n IH]; intros i0.
  - simpl. now rewrite Z.add_0_r.
  - change (numbers i0 (S (S n))) with (i0 :: numbers (i0 + 1) (S n)).
    rewrite IH. simpl. do 3 f_equal. lia.
Qed.

(** *** The number of the first batch *)

Section Quotient.

Local Open Scope Z_scope.

Lemma nearest_bounds (n d : Z) :
  0 < d -> n / d <= nearest n d <= n / d + 1.
Proof.
  intros Hd. unfold nearest.
  destruct (2 * (n mod d) ?= d); [destruct (Z.even (n / d))|..]; lia.
Qed.

Lemma nearest_up (n d : Z) :
  0 < d -> nearest n d = n / d + 1 -> d <= 2 * (n mod d).
Proof.
  intros Hd. unfold nearest.
  destruct (Z.compare_spec (2 * (n mod d)) d); [destruct (Z.even (n / d))|..]; lia.
Qed.

(** [2^k <= a / b] for [k] the exponent of the quotient. *)
Lemma exponent_below (a b : Z) :
  0 < a -> 0 < b ->
  b * 2 ^ Z.max 0 (exponent a b) <= a * 2 ^ Z.max 0 (- exponent a b).
Proof.
  intros Ha Hb. unfold exponent.
  set (k := Z.log2 a - Z.log2 b).
  destruct (Z.ltb_spec (a * 2 ^ Z.max 0 (- k)) (b * 2 ^ Z.max 0 k)) as [Hlt | Hge];
    [|exact Hge].
  destruct (Z.log2_spec a Ha) as [Ha1 Ha2].
  destruct (Z.log2_spec b Hb) as [Hb1 Hb2].
  pose proof (Z.log2_nonneg a) as Hla. pose proof (Z.log2_nonneg b) as Hlb.
  destruct (Z.le_gt_cases 1 k) as [Hk | Hk].
  - rewrite (Z.max_r 0 (k - 1)), (Z.max_l 0 (- (k - 1))) by lia.
    rewrite Z.pow_0_r, Z.mul_1_r.
    assert (H : 2 ^ Z.log2 a = 2 ^ Z.succ (Z.log2 b) * 2 ^ (k - 1)).
    { rewrite <- Z.pow_add_r by lia. f_equal. unfold k. lia. }
    assert (0 < 2 ^ (k - 1)) by (apply Z.pow_pos_nonneg; lia).
    nia.
  - rewrite (Z.max_l 0 (k - 1)), (Z.max_r 0 (- (k - 1))) by lia.
    rewrite Z.pow_0_r, Z.mul_1_r.
    assert (H : 2 ^ Z.succ (Z.log2 b) = 2 ^ Z.log2 a * 2 ^ (- (k - 1))).
    { rewrite <- Z.pow_add_r by lia. f_equal. unfold k. lia. }
    assert (0 < 2 ^ (- (k - 1))) by (apply Z.pow_pos_nonneg; lia).
    nia.
Qed.

Lemma exponent_le (a b : Z) :
  0 < a -> 0 < b -> exponent a b <= Z.log2 a.
Proof.
  intros Ha Hb. unfold exponent. pose proof (Z.log2_nonneg b).
  destruct (_ <? _); lia.
Qed.

(** Below 2^53 the integer part of the floating-point quotient is the
    exact quotient: the double nearest to [a / b] does not reach the next
    integer. *)
Lemma quotient_exact (a b : Z) :
  in_range a -> 0 < b -> int_of (truediv a b) = Z.quot a b.
Proof.
  intros [Ha Hlt] Hb. rewrite Z.quot_div_nonneg by lia.
  unfold truediv. destruct (Z.eqb_spec a 0) as [-> | Hne]; [reflexivity|].
  assert (Ha' : 0 < a) by lia.
  pose proof (exponent_below Ha' Hb) as Hlow.
  pose proof (exponent_le Ha' Hb) as Hle.
  assert (Hlog : Z.log2 a < 53) by (apply Z.log2_lt_pow2; lia).
  set (k := exponent a b) in *.
  set (s := 52 - k).
  assert (Hs : 0 <= s) by (unfold s; lia).
  replace (k - 52) with (- s) by (unfold s; lia).
  rewrite Z.opp_involutive, (Z.max_r 0 s), (Z.max_l 0 (- s)) by lia.
  rewrite Z.pow_0_r, Z.mul_1_r.
  assert (HP : 0 < 2 ^ s) by (apply Z.pow_pos_nonneg; lia).
  set (P := 2 ^ s) in *.
  set (m := nearest (a * P) b).
  assert (Hm : a / b * P <= m < (a / b + 1) * P).
  { pose proof (@nearest_bounds (a * P) b Hb) as Hb1. fold m in Hb1.
    pose proof (Z.div_mod a b) as Hab. pose proof (Z.mod_pos_bound a b Hb) as Hr.
    pose proof (Z.div_mod (a * P) b) as HaP.
    pose proof (Z.mod_pos_bound (a * P) b Hb) as Hr'.
    assert (Hf1 : a / b * P <= a * P / b).
    { apply Z.div_le_lower_bound; [lia|]. nia. }
    assert (Hf2 : a * P / b < (a / b + 1) * P).
    { apply Z.div_lt_upper_bound; [lia|]. nia. }
    split; [lia|].
    destruct (Z.eq_dec m (a * P / b + 1)) as [Hup | Hno]; [|lia].
    apply nearest_up in Hup; [|exact Hb].
    destruct (Z.eq_dec (a * P / b + 1) ((a / b + 1) * P)) as [Htop | Hnt]; [|lia].
    exfalso.
    assert (H2P : 2 * P <= b) by nia.
    destruct (Z.le_gt_cases 0 k) as [Hk | Hk].
    - rewrite (Z.max_r 0 k), (Z.max_l 0 (- k)) in Hlow by lia.
      rewrite Z.pow_0_r, Z.mul_1_r in Hlow.
      assert (H53 : 2 ^ 53 = 2 * P * 2 ^ k).
      { unfold P. change 2 with (2 ^ 1) at 2.
        rewrite <- !Z.pow_add_r by lia. f_equal. unfold s. lia. }
      assert (0 < 2 ^ k) by (apply Z.pow_pos_nonneg; lia). nia.
    - rewrite (Z.max_l 0 k), (Z.max_r 0 (- k)) in Hlow by lia.
      rewrite Z.pow_0_r, Z.mul_1_r in Hlow.
      assert (H53 : 2 ^ 53 * 2 ^ (- k) = 2 * P).
      { unfold P. change 2 with (2 ^ 1) at 3.
        rewrite <- !Z.pow_add_r by lia. f_equal. unfold s. lia. }
      assert (0 < 2 ^ (- k)) by (apply Z.pow_pos_nonneg; lia). nia. }
  unfold int_of.
  destruct (Z.leb_spec 0 (- s)) as [H0 | H0].
  - assert (Hs0 : s = 0) by lia. unfold P in Hm. rewrite Hs0 in *.
    change (- 0) with 0. rewrite Z.pow_0_r in *. lia.
  - rewrite Z.opp_involutive. fold P.
    symmetry. apply Z.div_unique with (r := m - a / b * P); lia.
Qed.

Lemma in_range_maxsize (s : Z) : in_range s -> 0 <= s <= maxsize.
Proof.
  intros [H0 H1]. split; [exact H0|].
  assert (H : 2 ^ 53 <= maxsize) by (vm_compute; discriminate). lia.
Qed.

Lemma in_range_0 : in_range 0.
Proof. split; [lia | reflexivity]. Qed.

End Quotient.

(** From 2^53 on the two differ: the double nearest to the quotient can be
    the next integer. *)
Example quotient_rounded :
  int_of (truediv 5296855682339020799 1000) = 5296855682339021%Z /\
  Z.quot 5296855682339020799 1000 = 5296855682339020%Z.
Proof. split; reflexivity. Qed.

(** *** The pool *)

Lemma Forall_concat_each (A : Type) (P : A -> Prop) (ls : list (list A)) :
  Forall P (concat ls) <-> Forall (Forall P) ls.
Proof.
  induction ls as [|l ls IH]; simpl.
  - split; constructor.
  - rewrite Forall_app, IH. split.
    + intros [H1 H2]. now constructor.
    + intros H. inversion H; subst. now split.
Qed.

Lemma gather_results (vss : list (list verdict)) :
  gather (map inr vss) = Results (concat vss).
Proof.
  induction vss as [|vs vss IH]; [reflexivity|].
  cbn [map gather concat]. now rewrite IH.
Qed.

(** What a report says of the tasks it comes from. *)
Lemma gather_cases (ends : list (failure + list verdict)) :
  match gather ends with
  | Results vs => exists vss, ends = map inr vss /\ vs = concat vss
  | Failed es => es <> [] /\ forall e, In e es -> In (inl (Raises e)) ends
  | Lost => In (inl Dies) ends
  end.
Proof.
  induction ends as [|[[e|]|vs] ends IH]; cbn [gather].
  - exists []. split; reflexivity.
  - destruct (gather ends) as [vs' | es | ].
    + split; [discriminate|]. intros e' [<- | []]. now left.
    + destruct IH as [_ IH]. split; [discriminate|].
      intros e' [<- | He']; [now left | right; now apply IH].
    + now right.
  - destruct (gather ends); now left.
  - destruct (gather ends) as [vs' | es | ].
    + destruct IH as (vss & -> & ->). exists (vs :: vss). split; reflexivity.
    + destruct IH as [Hne IH]. split; [exact Hne|].
      intros e He. right. now apply IH.
    + now right.
Qed.

Lemma sound_not_failing (abnormal : list string -> option failure)
  (chunk : list (list string)) :
  sound abnormal chunk -> failing abnormal chunk -> False.
Proof.
  unfold sound, failing. rewrite Forall_forall, Exists_exists.
  intros Hs (seeds & Hin & Hf). apply Hf, Hs, Hin.
Qed.

Lemma chunk_cases (abnormal : list string -> option failure)
  (chunk : list (list string)) :
  sound abnormal chunk \/ failing abnormal chunk.
Proof.
  induction chunk as [|seeds rest IH]; [left; constructor|].
  destruct (abnormal seeds) as [f|] eqn:E.
  - right. apply Exists_cons_hd. rewrite E. discriminate.
  - destruct IH as [IH | IH]; [left | right].
    + constructor; assumption.
    + now apply Exists_cons_tl.
Qed.

Lemma stopped_final (abnormal : list string -> option failure)
  (bad : list (list string)) (o : outcome) (w : world) :
  stopped abnormal bad o w -> final o = w.
Proof. intros [[-> _] | (es & -> & _)]; reflexivity. Qed.

Section Batches.

Variable derive : string -> derivation.
Variable abnormal : list string -> option failure.
Variables (num_processes chunk_size : Z) (target_address : list string).

Hypothesis cores : (1 <= num_processes)%Z.

Lemma task_sound (calls : list (list string)) :
  sound abnormal calls ->
  task derive abnormal target_address calls =
    inr (map (fun seeds => fst (process derive seeds target_address)) calls).
Proof.
  unfold sound. induction 1 as [|seeds rest Hs _ IH]; simpl; [reflexivity|].
  now rewrite Hs, IH.
Qed.

Lemma task_returns (calls : list (list string)) (vs : list verdict) :
  task derive abnormal target_address calls = inr vs -> sound abnormal calls.
Proof.
  revert vs. induction calls as [|seeds rest IH]; intros vs; simpl.
  - constructor.
  - destruct (abnormal seeds) as [f|] eqn:E; [discriminate|].
    destruct (task derive abnormal target_address rest) as [f|vs'] eqn:Et;
      [discriminate|].
    intros _. constructor; [exact E | now apply (IH vs')].
Qed.

Lemma task_failed (calls : list (list string)) (f : failure) :
  task derive abnormal target_address calls = inl f ->
  exists seeds, In seeds calls /\ abnormal seeds = Some f.
Proof.
  induction calls as [|seeds rest IH]; simpl; [discriminate|].
  destruct (abnormal seeds) as [f'|] eqn:E.
  - intros [= ->]. exists seeds. split; [now left | exact E].
  - destruct (task derive abnormal target_address rest) as [f'|vs];
      [|discriminate].
    intros [= ->]. destruct IH as (s & Hin & Hs); [reflexivity|].
    exists s. split; [now right | exact Hs].
Qed.

Lemma task_size_pos (n : Z) :
  (0 < n)%Z -> (0 < task_size n num_processes)%Z.
Proof.
  intros Hn. unfold task_size.
  assert (Hd : (0 < num_processes * 4)%Z) by lia.
  pose proof (Z.div_mod n (num_processes * 4)) as Hdm.
  pose proof (Z.mod_pos_bound n (num_processes * 4) Hd) as Hr.
  assert (Hq : (0 <= n / (num_processes * 4))%Z) by (apply Z.div_pos; lia).
  destruct (Z.eqb_spec (n mod (num_processes * 4)) 0) as [E | E]; nia.
Qed.

(** The tasks of a batch are the batch, cut into pieces. *)
Lemma tasks_concat (chunk : list (list string)) :
  concat (chunked chunk
            (Z.to_nat (task_size (Z.of_nat (length chunk)) num_processes)))
  = chunk.
Proof.
  destruct chunk as [|seeds rest]; [reflexivity|].
  apply chunked_concat.
  pose proof (@task_size_pos (Z.of_nat (length (seeds :: rest)))) as H.
  simpl length in *. lia.
Qed.

(** A batch no call of which fails: the results of its calls, in order. *)
Lemma starmap_sound (chunk : list (list string)) :
  sound abnormal chunk ->
  starmap derive abnormal num_processes target_address chunk =
    Results (map (fun seeds => fst (process derive seeds target_address)) chunk).
Proof.
  intros Hs. unfold starmap.
  pose proof (tasks_concat chunk) as Hcat.
  set (tasks := chunked chunk _) in *.
  assert (Hall : Forall (sound abnormal) tasks).
  { apply Forall_concat_each. now rewrite Hcat. }
  transitivity (Results (map (fun seeds => fst (process derive seeds target_address))
                             (concat tasks))); [|now rewrite Hcat].
  rewrite concat_map, <- gather_results, map_map.
  f_equal. apply map_ext_in. intros t Ht.
  apply task_sound. rewrite Forall_forall in Hall. now apply Hall.
Qed.

(** A batch some call of which fails: the pool has no results. *)
Lemma starmap_failing (chunk : list (list string)) :
  failing abnormal chunk ->
  match starmap derive abnormal num_processes target_address chunk with
  | Results _ => False
  | Failed es =>
      es <> [] /\
      forall e, In e es ->
        exists seeds, In seeds chunk /\ abnormal seeds = Some (Raises e)
  | Lost => exists seeds, In seeds chunk /\ abnormal seeds = Some Dies
  end.
Proof.
  intros Hf. unfold starmap.
  pose proof (tasks_concat chunk) as Hcat.
  set (tasks := chunked chunk _) in *.
  assert (Hin : forall f, In (inl f) (map (task derive abnormal target_address) tasks) ->
                exists seeds, In seeds chunk /\ abnormal seeds = Some f).
  { intros f Hf'. apply in_map_iff in Hf'. destruct Hf' as (t & Ht & Hint).
    apply task_failed in Ht. destruct Ht as (seeds & Hs & Ha).
    exists seeds. split; [|exact Ha].
    rewrite <- Hcat. apply in_concat. now exists t. }
  pose proof (gather_cases (map (task derive abnormal target_address) tasks)) as Hg.
  destruct (gather (map (task derive abnormal target_address) tasks))
    as [vs | es | ].
  - destruct Hg as (vss & Hends & _).
    apply (@sound_not_failing abnormal chunk); [|exact Hf].
    rewrite <- Hcat. apply Forall_concat_each.
    rewrite Forall_forall. intros t Ht.
    assert (Hr : In (task derive abnormal target_address t)
                    (map (task derive abnormal target_address) tasks))
      by now apply in_map.
    rewrite Hends in Hr. apply in_map_iff in Hr. destruct Hr as (vs' & Hvs & _).
    now apply (@task_returns t vs').
  - destruct Hg as [Hne Hg]. split; [exact Hne|].
    intros e He. apply Hin, Hg, He.
  - apply Hin, Hg.
Qed.

Lemma record_matches (chunk : list (list string)) (w : world) :
  record (map (fun seeds => fst (process derive seeds target_address)) chunk) w =
  {| progress := progress w;
     csv := csv w ++ matches derive target_address chunk;
     saves := saves w;
     statuses := statuses w;
     listed := listed w ++ matches derive target_address chunk;
     dispatched := dispatched w;
     resolved := resolved w |}.
Proof.
  revert w. induction chunk as [|seeds rest IH]; intros w.
  - simpl. rewrite !app_nil_r. now destruct w.
  - unfold matches in *. simpl. unfold process.
    destruct (derive (normalize seeds)) as [address| |e]; simpl;
      [destruct (member address target_address); simpl|..];
      rewrite IH; simpl; rewrite <- ?app_assoc; reflexivity.
Qed.

Lemma batch_sound (w : world) (index : Z) (chunk : list (list string)) :
  sound abnormal chunk ->
  batch derive abnormal num_processes chunk_size target_address w (index, chunk) =
  Completed (after derive num_processes chunk_size target_address index [chunk] w).
Proof.
  intros Hs. unfold batch.
  rewrite (starmap_sound Hs), record_matches. unfold after, marks. simpl.
  rewrite !app_nil_r.
  destruct (index mod 10 =? 0)%Z; simpl; rewrite ?app_nil_r; reflexivity.
Qed.

(** A batch some call of which fails ends the run: the batch has been
    submitted, and that is all. *)
Lemma batch_failing (w : world) (index : Z) (chunk : list (list string)) :
  failing abnormal chunk ->
  stopped abnormal chunk
    (batch derive abnormal num_processes chunk_size target_address w (index, chunk))
    (dispatch (Checking ((index + 1) * chunk_size)%Z num_processes) chunk w).
Proof.
  intros Hf. unfold batch, stopped.
  pose proof (starmap_failing Hf) as H.
  destruct (starmap derive abnormal num_processes target_address chunk)
    as [vs | es | ].
  - contradiction.
  - right. exists es. destruct H as [Hne H]. repeat split; assumption.
  - left. split; [reflexivity | exact H].
Qed.

Lemma after_cons (w : world) (i0 : Z) (chunk : list (list string))
  (chunks : list (list (list string))) :
  after derive num_processes chunk_size target_address i0 (chunk :: chunks) w =
  after derive num_processes chunk_size target_address (i0 + 1) chunks
    (after derive num_processes chunk_size target_address i0 [chunk] w).
Proof.
  unfold after. cbn [length numbers progress csv saves statuses listed
                     dispatched resolved concat].
  rewrite !app_nil_r.
  change (i0 :: numbers (i0 + 1) (length chunks))
    with ([i0] ++ numbers (i0 + 1) (length chunks)).
  rewrite marks_app, last_app_default, map_app.
  unfold matches. rewrite !flat_map_app, <- !app_assoc.
  reflexivity.
Qed.

Lemma after_nil (w : world) (i0 : Z) :
  after derive num_processes chunk_size target_address i0 [] w = w.
Proof. unfold after. simpl. rewrite !app_nil_r. now destruct w. Qed.

(** A run of batches none of which fails abnormally goes through. *)
Lemma batches_sound (chunks : list (list (list string))) (w : world) (i0 : Z) :
  Forall (sound abnormal) chunks ->
  batches derive abnormal num_processes chunk_size target_address w
          (enumerate chunks i0) =
  Completed (after derive num_processes chunk_size target_address i0 chunks w).
Proof.
  intros H. revert w i0. induction H as [|chunk chunks Hs _ IH]; intros w i0.
  - simpl. now rewrite after_nil.
  - cbn [enumerate batches].
    rewrite (batch_sound _ _ Hs), IH, (after_cons w i0 chunk chunks).
    reflexivity.
Qed.

(** A run of batches stops in the first batch with an abnormal failure. *)
Lemma batches_failure (pre post : list (list (list string)))
  (bad : list (list string)) (w : world) (i0 : Z) :
  Forall (sound abnormal) pre -> failing abnormal bad ->
  stopped abnormal bad
    (batches derive abnormal num_processes chunk_size target_address w
             (enumerate (pre ++ bad :: post) i0))
    (dispatch (Checking ((i0 + Z.of_nat (length pre) + 1) * chunk_size)%Z
                        num_processes)
              bad
              (after derive num_processes chunk_size target_address i0 pre w)).
Proof.
  intros H Hbad. revert w i0. induction H as [|chunk chunks Hs _ IH]; intros w i0.
  - cbn [app enumerate batches length]. rewrite after_nil, Z.add_0_r.
    pose proof (batch_failing w i0 Hbad) as Hstop.
    destruct Hstop as [[Hb Hd] | (es & Hb & Hes)]; rewrite Hb.
    + left. split; [reflexivity | exact Hd].
    + right. exists es. split; [reflexivity | exact Hes].
  - cbn [app enumerate batches].
    rewrite (batch_sound _ _ Hs), (after_cons w i0 chunk chunks).
    replace (i0 + Z.of_nat (length (chunk :: chunks)) + 1)%Z
      with (i0 + 1 + Z.of_nat (length chunks) + 1)%Z
      by (rewrite length_cons; lia).
    apply IH.
Qed.

End Batches.

Lemma sound_no_fault (chunks : list (list (list string))) :
  Forall (sound no_fault) chunks.
Proof.
  rewrite Forall_forall. intros chunk _. unfold sound.
  rewrite Forall_forall. intros seeds _. reflexivity.
Qed.

(** ** The run *)

Section Runs.

Variable derive : string -> derivation.
Variable abnormal : list string -> option failure.
Variables (L : nat) (num_processes : Z) (wordlist target_address : list string).

(** Past the two start-up checks, [start] is the loop over its batches. *)
Lemma start_upto_batches (limit : option nat) (resume : bool) (w : world) :
  (1 <= num_processes)%Z ->
  (0 <= (if resume then progress w else 0) <= maxsize)%Z ->
  let start_from := (if resume then progress w else 0)%Z in
  let chunk_size := (num_processes * 1000)%Z in
  start_upto derive abnormal limit L num_processes wordlist target_address resume w =
  batches derive abnormal num_processes chunk_size target_address (setup resume w)
    (enumerate (upto limit (plan L wordlist start_from chunk_size))
               (int_of (truediv start_from chunk_size) - 1)).
Proof.
  intros Hnp Hstart. cbn zeta. unfold start_upto.
  destruct (Z.ltb_spec num_processes 1) as [|_]; [lia|].
  destruct (Z.ltb_spec (if resume then progress w else 0) 0) as [|_]; [lia|].
  destruct (Z.ltb_spec maxsize (if resume then progress w else 0)) as [|_]; [lia|].
  cbn [orb]. unfold schedule, plan, upto.
  destruct limit as [j|]; [rewrite enumerate_firstn|]; reflexivity.
Qed.

Lemma start_upto_completes (limit : option nat) (resume : bool) (w : world) :
  (1 <= num_processes)%Z ->
  (0 <= (if resume then progress w else 0) <= maxsize)%Z ->
  let start_from := (if resume then progress w else 0)%Z in
  let chunk_size := (num_processes * 1000)%Z in
  let chunks := upto limit (plan L wordlist start_from chunk_size) in
  Forall (sound abnormal) chunks ->
  start_upto derive abnormal limit L num_processes wordlist target_address resume w =
  Completed (after derive num_processes chunk_size target_address
                   (int_of (truediv start_from chunk_size) - 1) chunks
                   (setup resume w)).
Proof.
  intros Hnp Hstart. cbn zeta. intros Hs.
  rewrite start_upto_batches by assumption. cbn zeta.
  now apply batches_sound.
Qed.

(** The same for a start rank below 2^53, where the batches are numbered
    from the exact quotient. *)
Lemma start_upto_loop (limit : option nat) (resume : bool) (w : world) :
  (1 <= num_processes)%Z ->
  in_range (if resume then progress w else 0) ->
  let start_from := (if resume then progress w else 0)%Z in
  let chunk_size := (num_processes * 1000)%Z in
  start_upto derive abnormal limit L num_processes wordlist target_address resume w =
  batches derive abnormal num_processes chunk_size target_address (setup resume w)
    (enumerate (upto limit (plan L wordlist start_from chunk_size))
               (Z.quot start_from chunk_size - 1)).
Proof.
  intros Hnp Hstart. cbn zeta.
  rewrite start_upto_batches by (try apply in_range_maxsize; assumption).
  cbn zeta. now rewrite quotient_exact by (try assumption; lia).
Qed.

Lemma start_upto_sound (limit : option nat) (resume : bool) (w : world) :
  (1 <= num_processes)%Z ->
  in_range (if resume then progress w else 0) ->
  let start_from := (if resume then progress w else 0)%Z in
  let chunk_size := (num_processes * 1000)%Z in
  let chunks := upto limit (plan L wordlist start_from chunk_size) in
  Forall (sound abnormal) chunks ->
  start_upto derive abnormal limit L num_processes wordlist target_address resume w =
  Completed (after derive num_processes chunk_size target_address
                   (Z.quot start_from chunk_size - 1) chunks (setup resume w)).
Proof.
  intros Hnp Hstart. cbn zeta. intros Hs.
  rewrite start_upto_loop by assumption. cbn zeta.
  now apply batches_sound.
Qed.

End Runs.





(** C2 (as the code has it). When the pool has fewer words than the phrase
    length, the generator yields nothing.  With at least one worker
    process and, in a resumed run, a stored progress from 0 to
    [sys.maxsize], so that the start-up itself goes through, the run
    performs its start-up steps and returns normally, without raising; no
    candidate is evaluated, no batch is submitted and no checkpoint is
    written. *)
Theorem short_pool (derive : string -> derivation)
  (abnormal : list string -> option failure) (L : nat) (num_processes : Z)
  (wordlist target_address : list string) (resume : bool) (w : world) :
  length wordlist < L ->
  (1 <= num_processes)%Z ->
  (0 <= (if resume then progress w else 0) <= maxsize)%Z ->
  start_with derive abnormal L num_processes wordlist target_address resume w
    = Completed (setup resume w) /\
  evaluated (setup resume w) = evaluated w /\
  dispatched (setup resume w) = dispatched w /\
  saves (setup resume w) = saves w /\
  progress (setup resume w) = progress w.
Proof.
  intros Hshort Hnp Hstart. split; [|repeat split; reflexivity].
  unfold start_with. rewrite start_upto_batches by assumption.
  cbn zeta. cbn [upto]. unfold plan.
  rewrite permutations_arrangements, arrangements_short by exact Hshort.
  reflexivity.
Qed.

Lemma short_pool_witness :
  start_with rejects_all no_fault 12 1 abcd [] true (initial 5 [])
    = Completed (setup true (initial 5 [])) /\
  evaluated (setup true (initial 5 [])) = evaluated (initial 5 []) /\
  dispatched (setup true (initial 5 [])) = dispatched (initial 5 []) /\
  saves (setup true (initial 5 [])) = saves (initial 5 []) /\
  progress (setup true (initial 5 [])) = progress (initial 5 []).
Proof.
  apply (@short_pool rejects_all no_fault 12 1 abcd [] true (initial 5 [])).
  - simpl. lia.
  - lia.
  - apply in_range_maxsize. split; [simpl; lia | reflexivity].
Defined.

(** C2 fails as stated: [start], whose phrase length is 12, run on a pool
    of four words returns normally instead of raising. *)
Lemma short_pool_no_error :
  start rejects_all no_fault 1 abcd [] false (initial 0 [])
    = Completed (setup false (initial 0 [])) /\
  forall e w', start rejects_all no_fault 1 abcd [] false (initial 0 []) <> Raised e w'.
Proof.
  assert (H : start rejects_all no_fault 1 abcd [] false (initial 0 [])
              = Completed (setup false (initial 0 []))) by (vm_compute; reflexivity).
  split; [exact H|]. intros e w'. rewrite H. discriminate.
Qed.

(** C7 (as the code has it). Started at a rank [R] from 0 to
    [sys.maxsize], the generator yields the full enumeration without its
    first [R] candidates, hence [size - R] candidates and none when [R] is
    at least the size of the space; and a run resumed from a stored
    progress of [R] evaluates exactly these candidates, in this order.
    A stored progress outside this range is refused by [islice]: the
    resumed run raises [ValueError] after its start-up steps, before any
    candidate is generated. *)
Theorem skip_invariance (derive : string -> derivation) (L : nat)
  (num_processes : Z) (wordlist target_address : list string) (R : nat)
  (rows : list (string * string)) :
  (1 <= num_processes)%Z ->
  (Z.of_nat R <= maxsize)%Z ->
  islice (permutations wordlist L) R = skipn R (permutations wordlist L) /\
  length (islice (permutations wordlist L) R)
    = length (permutations wordlist L) - R /\
  (length (permutations wordlist L) <= R -> islice (permutations wordlist L) R = []) /\
  (exists w',
     start_with derive no_fault L num_processes wordlist target_address true
                (initial (Z.of_nat R) rows) = Completed w' /\
     evaluated w' = skipn R (permutations wordlist L)) /\
  (forall p, (p < 0 \/ maxsize < p)%Z ->
     exists msg,
       start_with derive no_fault L num_processes wordlist target_address true
                  (initial p rows)
         = Raised (ValueError msg) (setup true (initial p rows))).
Proof.
  intros Hnp HR. rewrite islice_skipn. repeat split.
  - apply length_skipn.
  - intros Hlen. now apply skipn_all2.
  - unfold start_with.
    rewrite start_upto_completes
      by first [apply sound_no_fault | exact Hnp | cbn [initial progress]; lia].
    eexists. split; [reflexivity|].
    unfold evaluated, after. cbn [resolved setup initial progress upto app].
    unfold plan. rewrite chunked_concat by lia.
    now rewrite Nat2Z.id, islice_skipn.
  - intros p Hp. unfold start_with, start_upto. cbn [initial progress].
    destruct (Z.ltb_spec num_processes 1) as [|_]; [lia|].
    destruct (Z.ltb_spec p 0) as [_ | H0]; [eexists; reflexivity|].
    destruct (Z.ltb_spec maxsize p) as [_ | H1]; [eexists; reflexivity | lia].
Qed.

Lemma skip_invariance_witness :
  islice (permutations abcd 3) 10 = skipn 10 (permutations abcd 3) /\
  length (islice (permutations abcd 3) 10) = length (permutations abcd 3) - 10 /\
  (length (permutations abcd 3) <= 10 -> islice (permutations abcd 3) 10 = []) /\
  (exists w',
     start_with rejects_all no_fault 3 1 abcd [] true (initial (Z.of_nat 10) [])
       = Completed w' /\
     evaluated w' = skipn 10 (permutations abcd 3)) /\
  (forall p, (p < 0 \/ maxsize < p)%Z ->
     exists msg,
       start_with rejects_all no_fault 3 1 abcd [] true (initial p [])
         = Raised (ValueError msg) (setup true (initial p []))).
Proof.
  apply (@skip_invariance rejects_all 3 1 abcd [] 10 []);
    [lia | vm_compute; discriminate].
Defined.

(** C7 fails as stated: the rank 2^63 is beyond the 24 candidates of
    scenario A, and a run resumed from it does not go through an empty
    enumeration: it raises [ValueError], no batch submitted. *)
Lemma skip_above_maxsize :
  (Z.of_nat (length (permutations abcd 3)) <= 2 ^ 63)%Z /\
  exists msg w',
    start_with rejects_all no_fault 3 1 abcd [] true (initial (2 ^ 63) [])
      = Raised (ValueError msg) w' /\
    statuses w' = [Starting] /\ dispatched w' = [] /\ evaluated w' = [].
Proof.
  split; [vm_compute; discriminate|].
  do 2 eexists. split; [vm_compute; reflexivity|].
  repeat split; reflexivity.
Qed.

Lemma firstn_length_app (A : Type) (l1 l2 : list A) :
  firstn (length l1) (l1 ++ l2) = l1.
Proof.
  induction l1 as [|x l1 IH]; simpl; [reflexivity|]. now rewrite IH.
Qed.






(** A worker that dies: on the pool of scenario A with one worker process,
    the call on the last candidate ending its worker, the run hangs in its
    one batch, although the 23 other calls have returned. *)
Example worker_death_hangs :
  exists w',
    start_with rejects_all dies_on_dcb 3 1 abcd [] false (initial 0 [])
      = Hangs w' /\
    dispatched w' = [permutations abcd 3] /\ resolved w' = [].
Proof.
  eexists. split; [vm_compute; reflexivity|].
  split; vm_compute; reflexivity.
Qed.

(** ** Checkpoints *)

Lemma marks_In (chunk_size i0 v : Z) (n : nat) :
  In v (marks chunk_size (numbers i0 n)) <->
  exists i, (i0 <= i < i0 + Z.of_nat n)%Z /\ (i mod 10 = 0)%Z /\
            v = ((i + 1) * chunk_size)%Z.
Proof.
  unfold marks. rewrite in_map_iff. split.
  - intros (i & <- & Hi). apply filter_In in Hi. destruct Hi as [Hi Hm].
    exists i. rewrite numbers_In in Hi. rewrite Z.eqb_eq in Hm. auto.
  - intros (i & Hi & Hm & ->). exists i. split; [reflexivity|].
    apply filter_In. rewrite numbers_In, Z.eqb_eq. auto.
Qed.

Lemma numbers_sorted (n : nat) (i0 : Z) : StronglySorted Z.lt (numbers i0 n).
Proof.
  revert i0. induction n as [|n IH]; intros i0; simpl; constructor.
  - apply IH.
  - rewrite Forall_forall. intros i Hi. apply numbers_In in Hi. lia.
Qed.

Lemma StronglySorted_filter (A : Type) (R : A -> A -> Prop) (f : A -> bool)
  (l : list A) :
  StronglySorted R l -> StronglySorted R (filter f l).
Proof.
  induction 1 as [|x l Hs IH Hall]; simpl; [constructor|].
  destruct (f x); [|exact IH].
  constructor; [exact IH|].
  rewrite Forall_forall in *. intros y Hy.
  apply filter_In in Hy. apply Hall, Hy.
Qed.

Lemma marks_sorted (chunk_size i0 : Z) (n : nat) :
  (0 < chunk_size)%Z -> StronglySorted Z.lt (marks chunk_size (numbers i0 n)).
Proof.
  intros Hcs. unfold marks.
  apply StronglySorted_map with (R := Z.lt).
  - intros a b Hab. nia.
  - apply StronglySorted_filter, numbers_sorted.
Qed.

Lemma marks_snoc (chunk_size i0 : Z) (n : nat) :
  marks chunk_size (numbers i0 (S n)) =
  marks chunk_size (numbers i0 n) ++
  (if ((i0 + Z.of_nat n) mod 10 =? 0)%Z
   then [((i0 + Z.of_nat n + 1) * chunk_size)%Z] else []).
Proof.
  rewrite numbers_snoc, marks_app. f_equal.
  unfold marks. simpl. now destruct (_ =? 0)%Z.
Qed.

Lemma concat_firstn_le (A : Type) (l : list (list A)) (k j : nat) :
  k <= j -> length (concat (firstn k l)) <= length (concat (firstn j l)).
Proof.
  revert k j. induction l as [|c l IH]; intros k j Hkj.
  - now rewrite !firstn_nil.
  - destruct k as [|k]; [simpl; lia|].
    destruct j as [|j]; [lia|].
    simpl. rewrite !length_app. specialize (IH k j). lia.
Qed.

(** The candidates of the first [k] batches number [k] times the batch
    size as long as a further batch follows. *)
Lemma plan_full (L : nat) (wordlist : list string) (start_from chunk_size : Z)
  (k : nat) :
  k < length (plan L wordlist start_from chunk_size) ->
  length (concat (firstn k (plan L wordlist start_from chunk_size)))
    = k * Z.to_nat chunk_size.
Proof. unfold plan, chunked. apply chunked_fuel_full. Qed.

Section Checkpoints.

Variable derive : string -> derivation.
Variables (L : nat) (num_processes : Z) (wordlist target_address : list string).
Variables (resume : bool) (p : Z) (rows : list (string * string)).

Let chunk_size : Z := (num_processes * 1000)%Z.
Let start_from : Z := if resume then p else 0%Z.
Let i0 : Z := (int_of (truediv start_from chunk_size) - 1)%Z.
Let chunks : list (list (list string)) := plan L wordlist start_from chunk_size.

Hypothesis cores : (1 <= num_processes)%Z.
Hypothesis rank : (0 <= start_from <= maxsize)%Z.

(** The world at the batch boundary after [j] batches. *)
Lemma boundary (limit : option nat) :
  start_upto derive no_fault limit L num_processes wordlist target_address
             resume (initial p rows) =
  Completed (after derive num_processes chunk_size target_address i0
                   (upto limit chunks) (setup resume (initial p rows))).
Proof.
  rewrite start_upto_completes; try assumption.
  - reflexivity.
  - apply sound_no_fault.
Qed.

Lemma boundary_saves (limit : option nat) :
  saves (final (start_upto derive no_fault limit L num_processes wordlist
                           target_address resume (initial p rows))) =
  marks chunk_size (numbers i0 (length (upto limit chunks))).
Proof. rewrite boundary. reflexivity. Qed.

Lemma boundary_progress (limit : option nat) :
  progress (final (start_upto derive no_fault limit L num_processes wordlist
                              target_address resume (initial p rows))) =
  last (marks chunk_size (numbers i0 (length (upto limit chunks)))) p.
Proof. rewrite boundary. reflexivity. Qed.

Lemma boundary_evaluated (limit : option nat) :
  evaluated (final (start_upto derive no_fault limit L num_processes wordlist
                               target_address resume (initial p rows))) =
  concat (upto limit chunks).
Proof. rewrite boundary. reflexivity. Qed.

Lemma boundary_csv (limit : option nat) :
  csv (final (start_upto derive no_fault limit L num_processes wordlist
                         target_address resume (initial p rows))) =
  (if resume then rows else [header]) ++
  matches derive target_address (concat (upto limit chunks)).
Proof. rewrite boundary. reflexivity. Qed.

(** Below 2^53 the batches are numbered from the exact quotient. *)
Lemma first_number : in_range start_from -> i0 = (Z.quot start_from chunk_size - 1)%Z.
Proof.
  intros Hr. unfold i0. rewrite quotient_exact; [reflexivity | exact Hr|].
  unfold chunk_size. lia.
Qed.

Lemma quotient_below : (Z.quot start_from chunk_size * chunk_size <= start_from)%Z.
Proof.
  rewrite Z.quot_div_nonneg by (unfold chunk_size; lia).
  rewrite Z.mul_comm. apply Z.mul_div_le. unfold chunk_size. lia.
Qed.

(** For a start rank below 2^53, a value written within the first [j]
    batches is a multiple of the batch size and is at most the start rank
    plus the number of candidates of these batches. *)
Lemma mark_bound (j : nat) (v : Z) :
  in_range start_from ->
  In v (marks chunk_size (numbers i0 (length (firstn j chunks)))) ->
  (chunk_size | v)%Z /\
  (Z.quot start_from chunk_size * chunk_size <= v)%Z /\
  (v <= start_from + Z.of_nat (length (concat (firstn j chunks))))%Z.
Proof.
  intros Hr Hv. apply marks_In in Hv. destruct Hv as (i & Hi & _ & ->).
  rewrite length_firstn in Hi. rewrite (first_number Hr) in Hi.
  split; [apply Z.divide_factor_r|].
  assert (Hcs : (0 < chunk_size)%Z) by (unfold chunk_size; lia).
  split; [nia|].
  set (k := Z.to_nat (i - (Z.quot start_from chunk_size - 1))).
  assert (Hk : k < length chunks) by lia.
  assert (Hkj : k <= j) by lia.
  pose proof (@plan_full L wordlist start_from chunk_size k Hk) as Hfull.
  fold chunks in Hfull.
  pose proof (concat_firstn_le chunks Hkj) as Hle.
  pose proof quotient_below as Hq.
  rewrite Hfull in Hle.
  assert (Hi' : (i + 1 = Z.quot start_from chunk_size + Z.of_nat k)%Z) by lia.
  rewrite Hi'.
  assert (Z.of_nat k * chunk_size <= Z.of_nat (length (concat (firstn j chunks))))%Z.
  { apply Nat2Z.inj_le in Hle. rewrite Nat2Z.inj_mul, Z2Nat.id in Hle by lia.
    exact Hle. }
  lia.
Qed.

End Checkpoints.

(** C4 (as the code has it). The batches of a run are numbered from
    [int(start_from / chunk_size) - 1], which is -1 in a fresh run and the
    exact quotient less one for a start rank below 2^53, and the progress
    is written after a batch exactly when the number of the batch is a
    multiple of 10, the value written being the number plus one times the
    batch size: one checkpoint every 10 batches, the first one after the
    second batch of a fresh run.  Nothing is written when the run
    completes: the checkpoints of a completed run are those written after
    its batches. *)
Theorem checkpoint_schedule (derive : string -> derivation) (L : nat)
  (num_processes : Z) (wordlist target_address : list string) (resume : bool)
  (p : Z) (rows : list (string * string)) :
  (1 <= num_processes)%Z ->
  (0 <= (if resume then p else 0) <= maxsize)%Z ->
  let chunk_size := (num_processes * 1000)%Z in
  let start_from := (if resume then p else 0)%Z in
  let i0 := (int_of (truediv start_from chunk_size) - 1)%Z in
  let chunks := plan L wordlist start_from chunk_size in
  let run limit :=
    start_upto derive no_fault limit L num_processes wordlist target_address
               resume (initial p rows) in
  (resume = false -> i0 = (-1)%Z) /\
  (in_range start_from -> i0 = (Z.quot start_from chunk_size - 1)%Z) /\
  saves (final (run (Some 0))) = [] /\
  (forall j, j < length chunks ->
     saves (final (run (Some (S j)))) =
     saves (final (run (Some j))) ++
     (if ((i0 + Z.of_nat j) mod 10 =? 0)%Z
      then [((i0 + Z.of_nat j + 1) * chunk_size)%Z] else [])) /\
  (forall j, saves (final (run (Some j))) =
             marks chunk_size (numbers i0 (Nat.min j (length chunks)))) /\
  exists w',
    run None = Completed w' /\
    saves w' = saves (final (run (Some (length chunks)))) /\
    progress w' = last (saves w') p.
Proof.
  intros Hnp Hstart. cbn zeta.
  assert (Hsaves : forall limit,
    saves (final (start_upto derive no_fault limit L num_processes wordlist
                             target_address resume (initial p rows))) =
    marks (num_processes * 1000)
          (numbers (int_of (truediv (if resume then p else 0)
                                    (num_processes * 1000)) - 1)
                   (length (upto limit
                      (plan L wordlist (if resume then p else 0)
                            (num_processes * 1000))))))
    by (intros limit; now apply boundary_saves).
  split; [intros ->; reflexivity|].
  split; [intros Hr; now apply first_number|].
  repeat split.
  - rewrite Hsaves. reflexivity.
  - intros j Hj. rewrite !Hsaves. cbn [upto].
    rewrite !length_firstn, !Nat.min_l by lia.
    apply marks_snoc.
  - intros j. rewrite Hsaves. cbn [upto]. now rewrite length_firstn.
  - eexists. split; [now apply boundary|].
    split.
    + rewrite Hsaves. cbn [upto saves after setup initial app].
      now rewrite firstn_all.
    + reflexivity.
Qed.

Lemma checkpoint_schedule_witness :
  let chunks := plan 5 abcdefg 1000 (1 * 1000) in
  let i0 := (int_of (truediv 1000 (1 * 1000)) - 1)%Z in
  let run limit :=
    start_upto rejects_all no_fault limit 5 1 abcdefg [] true (initial 1000 []) in
  i0 = (Z.quot 1000 (1 * 1000) - 1)%Z /\
  saves (final (run (Some 0))) = [] /\
  (forall j, j < length chunks ->
     saves (final (run (Some (S j)))) =
     saves (final (run (Some j))) ++
     (if ((i0 + Z.of_nat j) mod 10 =? 0)%Z
      then [((i0 + Z.of_nat j + 1) * (1 * 1000))%Z] else [])) /\
  (forall j, saves (final (run (Some j))) =
             marks (1 * 1000) (numbers i0 (Nat.min j (length chunks)))) /\
  (exists w',
     run None = Completed w' /\
     saves w' = saves (final (run (Some (length chunks)))) /\
     progress w' = last (saves w') 1000%Z) /\
  length chunks = 2 /\
  saves (final (run (Some 1))) = [1000%Z] /\
  saves (final (run None)) = [1000%Z].
Proof.
  intros chunks i0 run.
  destruct (@checkpoint_schedule rejects_all 5 1 abcdefg [] true 1000 [])
    as (_ & H1 & H2 & H3 & H4 & H5).
  - lia.
  - apply in_range_maxsize. split; [lia | reflexivity].
  - split; [apply H1; split; [lia | reflexivity]|].
    split; [exact H2|]. split; [exact H3|].
    split; [exact H4|]. split; [exact H5|].
    repeat split; vm_compute; reflexivity.
Defined.

(** C4 fails as stated: the run of scenario A completes, its batch
    evaluated, without any checkpoint being written. *)
Lemma no_checkpoint_on_completion :
  exists w',
    start_with rejects_all no_fault 3 1 abcd [] false (initial 0 []) = Completed w' /\
    resolved w' = [permutations abcd 3] /\
    saves w' = [].
Proof.
  eexists. split; [vm_compute; reflexivity|].
  split; vm_compute; reflexivity.
Qed.

Lemma last_cases (A : Type) (l : list A) (d : A) :
  (l = [] /\ last l d = d) \/ In (last l d) l.
Proof.
  induction l as [|x l IH]; [left; split; reflexivity | right].
  destruct l as [|y l]; [left; reflexivity|].
  destruct IH as [[H _] | H]; [discriminate|].
  right. exact H.
Qed.

(** C5 (as the code has it). For a start rank below 2^53: at every batch
    boundary of a run, each value the checkpoints of the run have written
    is a multiple of the batch size and is at most the start rank plus the
    number of candidates the run has evaluated, and the values written
    increase strictly; the stored progress is the last value written, or
    the value stored before the run as long as none has been written.
    When the value stored before the run is the start rank and a multiple
    of the batch size, the stored progress itself is at every boundary a
    multiple of the batch size, between that value and the rank reached,
    and it does not decrease from one boundary to the next. *)
Theorem checkpoint_invariants (derive : string -> derivation) (L : nat)
  (num_processes : Z) (wordlist target_address : list string) (resume : bool)
  (p : Z) (rows : list (string * string)) (j : nat) :
  (1 <= num_processes)%Z ->
  in_range (if resume then p else 0) ->
  let chunk_size := (num_processes * 1000)%Z in
  let start_from := (if resume then p else 0)%Z in
  let at_boundary k :=
    final (start_upto derive no_fault (Some k) L num_processes wordlist
                      target_address resume (initial p rows)) in
  let reached k := (start_from + Z.of_nat (length (evaluated (at_boundary k))))%Z in
  Forall (fun v => (chunk_size | v)%Z /\ (v <= reached j)%Z) (saves (at_boundary j)) /\
  StronglySorted Z.lt (saves (at_boundary j)) /\
  progress (at_boundary j) = last (saves (at_boundary j)) p /\
  (p = start_from -> (chunk_size | p)%Z ->
   (chunk_size | progress (at_boundary j))%Z /\
   (p <= progress (at_boundary j) <= reached j)%Z /\
   (progress (at_boundary j) <= progress (at_boundary (S j)))%Z).
Proof.
  intros Hnp Hrange. cbn beta zeta.
  pose proof (in_range_maxsize Hrange) as Hstart.
  set (cs := (num_processes * 1000)%Z).
  set (s := (if resume then p else 0)%Z) in *.
  set (chunks := plan L wordlist s cs).
  set (i0 := (Z.quot s cs - 1)%Z).
  assert (Hcs : (0 < cs)%Z) by (unfold cs; lia).
  assert (Hi0 : (int_of (truediv s cs) - 1)%Z = i0)
    by (unfold i0; now rewrite quotient_exact).
  assert (Hsaves : forall k,
    saves (final (start_upto derive no_fault (Some k) L num_processes wordlist
                             target_address resume (initial p rows))) =
    marks cs (numbers i0 (length (firstn k chunks))))
    by (intros k; rewrite <- Hi0; now apply boundary_saves).
  assert (Hprog : forall k,
    progress (final (start_upto derive no_fault (Some k) L num_processes wordlist
                             target_address resume (initial p rows))) =
    last (marks cs (numbers i0 (length (firstn k chunks)))) p)
    by (intros k; rewrite <- Hi0; now apply boundary_progress).
  assert (Heval : forall k,
    evaluated (final (start_upto derive no_fault (Some k) L num_processes wordlist
                             target_address resume (initial p rows))) =
    concat (firstn k chunks))
    by (intros k; now apply boundary_evaluated).
  assert (Hbound : forall k v,
    In v (marks cs (numbers i0 (length (firstn k chunks)))) ->
    (cs | v)%Z /\ (Z.quot s cs * cs <= v)%Z /\
    (v <= s + Z.of_nat (length (concat (firstn k chunks))))%Z)
    by (intros k v; rewrite <- Hi0; now apply mark_bound).
  rewrite !Hsaves, !Hprog, !Heval.
  split; [|split; [|split]].
  - rewrite Forall_forall. intros v Hv. apply Hbound in Hv. tauto.
  - now apply marks_sorted.
  - reflexivity.
  - intros Hp Hdiv.
    assert (Hq : (Z.quot s cs * cs = p)%Z).
    { destruct Hdiv as [m Hm]. rewrite <- Hp, Hm.
      rewrite Z.quot_mul by lia. reflexivity. }
    assert (Hj : (cs | last (marks cs (numbers i0 (length (firstn j chunks)))) p)%Z /\
                 (p <= last (marks cs (numbers i0 (length (firstn j chunks)))) p
                    <= s + Z.of_nat (length (concat (firstn j chunks))))%Z).
    { destruct (last_cases (marks cs (numbers i0 (length (firstn j chunks)))) p)
        as [[_ ->] | Hin].
      - split; [exact Hdiv | lia].
      - apply Hbound in Hin. rewrite Hq in Hin. tauto. }
    destruct Hj as [Hj1 Hj2]. repeat split; try tauto.
    rewrite !length_firstn.
    destruct (Nat.le_gt_cases (length chunks) j) as [Hlen | Hlen].
    + rewrite !Nat.min_r by lia. lia.
    + rewrite !Nat.min_l by lia. rewrite marks_snoc, last_app_default.
      destruct ((i0 + Z.of_nat j) mod 10 =? 0)%Z; [|simpl; lia].
      cbn [last].
      destruct (last_cases (marks cs (numbers i0 j)) p) as [[_ ->] | Hin].
      * unfold i0. nia.
      * apply marks_In in Hin. destruct Hin as (i & Hi & _ & ->). nia.
Qed.

Lemma checkpoint_invariants_witness :
  let at_boundary k :=
    final (start_upto rejects_all no_fault (Some k) 5 1 abcdefg [] true
                      (initial 1000 [])) in
  let reached k := (1000 + Z.of_nat (length (evaluated (at_boundary k))))%Z in
  let here := at_boundary 1 in
  let next := at_boundary 2 in
  let rank := reached 1 in
  Forall (fun v => (1 * 1000 | v)%Z /\ (v <= rank)%Z) (saves here) /\
  StronglySorted Z.lt (saves here) /\
  progress here = last (saves here) 1000%Z /\
  (1 * 1000 | progress here)%Z /\
  (1000 <= progress here <= rank)%Z /\
  (progress here <= progress next)%Z /\
  saves here = [1000%Z] /\ rank = 2000%Z.
Proof.
  intros at_boundary reached here next rank.
  destruct (@checkpoint_invariants rejects_all 5 1 abcdefg [] true 1000 [] 1)
    as (H1 & H2 & H3 & H4).
  - lia.
  - split; [lia | reflexivity].
  - destruct H4 as (H4 & H5 & H6); [reflexivity | exists 1%Z; reflexivity|].
    split; [exact H1|]. split; [exact H2|]. split; [exact H3|].
    split; [exact H4|]. split; [exact H5|]. split; [exact H6|].
    split; vm_compute; reflexivity.
Defined.

(** C5 fails as stated.  After the one batch of a fresh run of scenario A
    that found 5001 stored as progress, the stored progress is still 5001:
    more than the 24 candidates evaluated, and no multiple of the batch
    size 1000.  And in a fresh run over the 2520 phrases of five words out
    of seven, the stored progress falls from 5001 after the first batch to
    1000 after the second. *)
Lemma stale_progress_breaks_invariants :
  let w := final (start_upto rejects_all no_fault (Some 1) 3 1 abcd [] false
                             (initial 5001 [])) in
  let at_boundary k :=
    final (start_upto rejects_all no_fault (Some k) 5 1 abcdefg [] false
                      (initial 5001 [])) in
  length (evaluated w) = 24 /\
  (Z.of_nat (length (evaluated w)) < progress w)%Z /\
  ~ (1000 | progress w)%Z /\
  Z.lt (progress (at_boundary 2)) (progress (at_boundary 1)).
Proof.
  intros w at_boundary.
  assert (Hp : progress w = 5001%Z) by (vm_compute; reflexivity).
  assert (He : length (evaluated w) = 24) by (vm_compute; reflexivity).
  assert (H1 : progress (at_boundary 1) = 5001%Z) by (vm_compute; reflexivity).
  assert (H2 : progress (at_boundary 2) = 1000%Z) by (vm_compute; reflexivity).
  rewrite Hp, He, H1, H2. split; [reflexivity | split; [lia | split; [|lia]]].
  intros [m Hm]. lia.
Qed.

(** ** Fresh runs and the stored progress *)

(** C10. A fresh run does not reset the stored progress.  At every batch
    boundary at which the run has written no checkpoint yet, the stored
    progress is the value found before the run, while the CSV file has
    been cut back to its header, followed by the matches of the run; the
    first batch of a fresh run, numbered -1, writes no checkpoint, so that
    a run stopped before or after its first batch leaves the old progress
    behind; and the checkpoint after the second batch overwrites it with
    the batch size. *)
Theorem fresh_run_keeps_progress (derive : string -> derivation) (L : nat)
  (num_processes : Z) (wordlist target_address : list string) (p : Z)
  (rows : list (string * string)) (j : nat) :
  let at_boundary k :=
    final (start_upto derive no_fault (Some k) L num_processes wordlist
                      target_address false (initial p rows)) in
  (saves (at_boundary j) = [] -> progress (at_boundary j) = p) /\
  (j <= 1 -> saves (at_boundary j) = [] /\ progress (at_boundary j) = p) /\
  csv (at_boundary j) = header :: matches derive target_address (evaluated (at_boundary j)) /\
  ((1 <= num_processes)%Z ->
   2 <= length (plan L wordlist 0 (num_processes * 1000)) ->
   saves (at_boundary 2) = [(num_processes * 1000)%Z] /\
   progress (at_boundary 2) = (num_processes * 1000)%Z).
Proof.
  cbn beta zeta.
  destruct (Z.le_gt_cases 1 num_processes) as [Hnp | Hnp].
  - assert (Hstart : (0 <= (if false then p else 0) <= maxsize)%Z)
      by (apply in_range_maxsize, in_range_0).
    rewrite !(boundary_saves derive L wordlist target_address false p rows Hnp Hstart).
    rewrite !(boundary_progress derive L wordlist target_address false p rows Hnp Hstart).
    rewrite !(boundary_csv derive L wordlist target_address false p rows Hnp Hstart).
    rewrite !(boundary_evaluated derive L wordlist target_address false p rows Hnp Hstart).
    cbn [upto]. rewrite !length_firstn.
    change (int_of (truediv 0 (num_processes * 1000)) - 1)%Z with (-1)%Z.
    split; [|split; [|split]].
    + intros ->. reflexivity.
    + intros Hj.
      assert (Hm : marks (num_processes * 1000)
                     (numbers (-1) (Nat.min j (length (plan L wordlist 0
                                                  (num_processes * 1000))))) = []).
      { destruct (Nat.min j _) as [|[|n]] eqn:E; [reflexivity | reflexivity | lia]. }
      rewrite Hm. split; reflexivity.
    + reflexivity.
    + intros _ Hlen. rewrite Nat.min_l by exact Hlen.
      assert (Hm : marks (num_processes * 1000) (numbers (-1) 2)
                   = [(num_processes * 1000)%Z]).
      { change (numbers (-1) 2) with [(-1)%Z; 0%Z]. unfold marks.
        change (filter _ [(-1)%Z; 0%Z]) with [0%Z]. cbn [map].
        now rewrite Z.add_0_l, Z.mul_1_l. }
      rewrite Hm. split; reflexivity.
  - unfold start_upto.
    destruct (Z.ltb_spec num_processes 1) as [_|]; [|lia].
    cbn [final setup initial saves progress csv evaluated resolved concat].
    repeat split; lia.
Qed.

Lemma fresh_run_keeps_progress_witness :
  let at_boundary k :=
    final (start_upto rejects_all no_fault (Some k) 5 1 abcdefg [] false
                      (initial 5001 [])) in
  (saves (at_boundary 1) = [] /\ progress (at_boundary 1) = 5001%Z) /\
  csv (at_boundary 1) = header :: matches rejects_all [] (evaluated (at_boundary 1)) /\
  saves (at_boundary 2) = [(1 * 1000)%Z] /\
  progress (at_boundary 2) = (1 * 1000)%Z.
Proof.
  destruct (@fresh_run_keeps_progress rejects_all 5 1 abcdefg [] 5001 [] 1)
    as (_ & H2 & H3 & H4).
  split; [apply H2; lia|]. split; [exact H3|].
  apply H4; [lia | vm_compute; lia].
Defined.

(** ** The evaluator *)

Lemma member_In (address : string) (target_address : list string) :
  member address target_address = true <-> In address target_address.
Proof.
  unfold member. rewrite existsb_exists. split.
  - intros (x & Hx & Heq). apply String.eqb_eq in Heq. now subst.
  - intros H. exists address. split; [exact H | apply String.eqb_refl].
Qed.



(** *** The phrase *)

Lemma lower_char_idem (c : ascii) : lower_char (lower_char c) = lower_char c.
Proof. destruct c as [[] [] [] [] [] [] [] []]; reflexivity. Qed.

Lemma is_space_lower_char (c : ascii) : is_space (lower_char c) = is_space c.
Proof. destruct c as [[] [] [] [] [] [] [] []]; reflexivity. Qed.

Lemma lower_idem (s : string) : lower (lower s) = lower s.
Proof.
  induction s as [|c s IH]; simpl; [reflexivity|].
  now rewrite lower_char_idem, IH.
Qed.

Lemma lower_append (s1 s2 : string) :
  lower (s1 ++ s2)%string = (lower s1 ++ lower s2)%string.
Proof. induction s1 as [|c s1 IH]; simpl; [reflexivity|]. now rewrite IH. Qed.

Lemma lower_lstrip (s : string) : lower (lstrip s) = lstrip (lower s).
Proof.
  induction s as [|c s IH]; simpl; [reflexivity|].
  rewrite is_space_lower_char. destruct (is_space c); [exact IH | reflexivity].
Qed.

Lemma lower_rstrip (s : string) : lower (rstrip s) = rstrip (lower s).
Proof.
  induction s as [|c s IH]; simpl; [reflexivity|].
  rewrite <- IH, is_space_lower_char.
  destruct (rstrip s) as [|a r]; simpl; [|reflexivity].
  destruct (is_space c); reflexivity.
Qed.

Lemma lower_strip (s : string) : lower (strip s) = strip (lower s).
Proof. unfold strip. now rewrite lower_rstrip, lower_lstrip. Qed.

Lemma rstrip_idem (s : string) : rstrip (rstrip s) = rstrip s.
Proof.
  induction s as [|c s IH]; simpl; [reflexivity|].
  destruct (rstrip s) as [|a r] eqn:E.
  - destruct (is_space c) eqn:Ec; simpl; [reflexivity|]. now rewrite Ec.
  - remember (String a r) as t eqn:Et. simpl. rewrite IH.
    subst t. reflexivity.
Qed.

Lemma rstrip_keeps_head (c : ascii) (s : string) :
  is_space c = false -> rstrip (String c s) = String c (rstrip s).
Proof.
  intros Hc. simpl. destruct (rstrip s); [now rewrite Hc | reflexivity].
Qed.

Lemma lstrip_head (s : string) :
  lstrip s = EmptyString \/
  exists c r, lstrip s = String c r /\ is_space c = false.
Proof.
  induction s as [|c s IH]; simpl; [now left|].
  destruct (is_space c) eqn:Ec; [exact IH|].
  right. exists c, s. split; [reflexivity | exact Ec].
Qed.

Lemma strip_idem (s : string) : strip (strip s) = strip s.
Proof.
  unfold strip. destruct (lstrip_head s) as [-> | (c & r & -> & Hc)].
  - reflexivity.
  - rewrite (@rstrip_keeps_head c r Hc). cbn [lstrip]. rewrite Hc.
    now rewrite (@rstrip_keeps_head c (rstrip r) Hc), rstrip_idem.
Qed.

Lemma lower_concat (sep : string) (l : list string) :
  lower (String.concat sep l) = String.concat (lower sep) (map lower l).
Proof.
  induction l as [|x l IH]; [reflexivity|].
  destruct l as [|y l]; [reflexivity|].
  change (lower (x ++ sep ++ String.concat sep (y :: l))%string
          = (lower x ++ lower sep ++ String.concat (lower sep) (map lower (y :: l)))%string).
  now rewrite !lower_append, IH.
Qed.

Lemma normalize_lower (seeds : list string) :
  normalize (map lower seeds) = normalize seeds.
Proof.
  unfold normalize. rewrite map_map. f_equal.
  apply map_ext. intros x. now rewrite lower_idem.
Qed.

Lemma normalize_strip (seeds : list string) :
  normalize (map strip seeds) = normalize seeds.
Proof.
  unfold normalize. rewrite map_map. f_equal.
  apply map_ext. intros x. now rewrite lower_strip, strip_idem.
Qed.

Lemma normalize_lowered (seeds : list string) :
  lower (normalize seeds) = normalize seeds.
Proof.
  unfold normalize. rewrite lower_concat, map_map.
  change (lower " ") with " "%string. f_equal.
  apply map_ext. intros x. now rewrite lower_strip, lower_idem.
Qed.




(** Scenario B: on the pool [a, b, c, d] with phrases of three words, the
    phrase "a b c" deriving the address X and X the one target, the run
    records the one match ("a b c", X). *)
Example scenario_B :
  csv (final (start_with abc_to_X no_fault 3 1 abcd only_X false (initial 0 [])))
  = [header; ("a b c"%string, "X"%string)].
Proof. vm_compute. reflexivity. Qed.

(** C9 (as the code has it). [process] never raises; it answers either a
    match, which carries the phrase and the address and is given exactly
    when the derived address is in the target set, or the one value
    [(False, [None, None])], which stands for a derived address outside
    the target set and for a failed derivation alike.  A derivation that
    fails with a [ValueError] prints nothing; one that fails with another
    exception prints that exception, and the answer is the same. *)
Theorem process_outcomes (derive : string -> derivation)
  (seeds target_address : list string) :
  fst (process derive seeds target_address)
    = verdict_of (normalize seeds) (evaluate derive seeds target_address) /\
  (fst (process derive seeds target_address) = no_match \/
   exists address,
     derive (normalize seeds) = Derived address /\ In address target_address /\
     process derive seeds target_address
       = ((true, (Some (normalize seeds), Some address)), [])) /\
  (derive (normalize seeds) = RaisesValueError ->
   process derive seeds target_address = (no_match, [])) /\
  (forall e, derive (normalize seeds) = RaisesOther e ->
   process derive seeds target_address = (no_match, [e])) /\
  (forall address, derive (normalize seeds) = Derived address ->
   ~ In address target_address ->
   process derive seeds target_address = (no_match, [])).
Proof.
  unfold process, evaluate.
  destruct (derive (normalize seeds)) as [address| |e] eqn:Hd.
  - destruct (member address target_address) eqn:Hm.
    + repeat split; try discriminate.
      * right. exists address. apply member_In in Hm. repeat split; assumption.
      * intros a [= <-] Hnot. apply member_In in Hm. contradiction.
    + repeat split; try discriminate; auto.
  - repeat split; try discriminate; auto.
  - repeat split; try discriminate; auto.
    intros e' [= <-]. reflexivity.
Qed.

(** C9 fails as stated: the answers of [process] do not tell [NotMatched]
    from [Invalid].  No reading of what [process] returns and prints gives
    back the answer of the contract: a phrase the derivation rejects and a
    phrase whose address is not a target yield the same. *)
Lemma not_matched_invalid_alike :
  process rejects_all abc only_X
    = process all_to_Y abc only_X /\
  evaluate rejects_all abc only_X = Invalid /\
  evaluate all_to_Y abc only_X = NotMatched /\
  ~ exists classify : verdict * list string -> evaluation,
      forall derive seeds target_address,
        classify (process derive seeds target_address)
          = evaluate derive seeds target_address.
Proof.
  repeat split.
  intros [classify H].
  pose proof (H rejects_all abc only_X) as H1.
  pose proof (H all_to_Y abc only_X) as H2.
  vm_compute in H1, H2. congruence.
Qed.

(** * Further properties of the engine *)

(** ** Normalisation of the phrase *)

(** X1. The answer of [process] does not depend on the case of the words
    nor on the white space around them: stripping the words, lower-casing
    them, or both in the other order than [process] does, before the call
    changes neither what it returns nor what it prints. *)
Theorem process_insensitive (derive : string -> derivation)
  (seeds target_address : list string) :
  process derive (map strip seeds) target_address
    = process derive seeds target_address /\
  process derive (map lower seeds) target_address
    = process derive seeds target_address /\
  process derive (map (fun x => lower (strip x)) seeds) target_address
    = process derive seeds target_address.
Proof.
  unfold process. rewrite normalize_strip, normalize_lower.
  replace (normalize (map (fun x => lower (strip x)) seeds)) with (normalize seeds).
  - repeat split; reflexivity.
  - rewrite <- (normalize_strip seeds) at 1. rewrite <- normalize_lower.
    now rewrite map_map.
Qed.

Example process_padded :
  process abc_to_X padded only_X = process abc_to_X abc only_X.
Proof. reflexivity. Qed.

(** ** However a run ends *)

Lemma split_at_failure (abnormal : list string -> option failure)
  (chunks : list (list (list string))) :
  Forall (sound abnormal) chunks \/
  exists pre bad post,
    chunks = pre ++ bad :: post /\ Forall (sound abnormal) pre /\
    failing abnormal bad.
Proof.
  induction chunks as [|chunk chunks IH]; [left; constructor|].
  destruct (chunk_cases abnormal chunk) as [Hs | Hf].
  - destruct IH as [IH | (pre & bad & post & -> & Hpre & Hbad)].
    + left. constructor; assumption.
    + right. exists (chunk :: pre), bad, post.
      repeat split; [constructor|]; assumption.
  - right. exists [], chunk, chunks. repeat split; [constructor | exact Hf].
Qed.

(** The shape of the world a run leaves behind, whether it completes, is
    stopped at a batch boundary or ends in a batch: the batches resolved
    are an initial segment [pre] of its batches, and it is the world of
    the run of [pre], with the failing batch submitted in the last case. *)
Lemma run_shape (derive : string -> derivation)
  (abnormal : list string -> option failure) (limit : option nat) (L : nat)
  (num_processes : Z) (wordlist target_address : list string) (resume : bool)
  (w : world) :
  (1 <= num_processes)%Z ->
  (0 <= (if resume then progress w else 0) <= maxsize)%Z ->
  let start_from := (if resume then progress w else 0)%Z in
  let i0 := (int_of (truediv start_from (num_processes * 1000)) - 1)%Z in
  let run := start_upto derive abnormal limit L num_processes wordlist
                        target_address resume w in
  exists pre post,
    upto limit (plan L wordlist start_from (num_processes * 1000)) = pre ++ post /\
    Forall (sound abnormal) pre /\
    ((post = [] /\
      run = Completed (after derive num_processes (num_processes * 1000)
                             target_address i0 pre (setup resume w))) \/
     (exists bad post',
        post = bad :: post' /\ failing abnormal bad /\
        stopped abnormal bad run
          (dispatch
             (Checking ((i0 + Z.of_nat (length pre) + 1) * (num_processes * 1000))
                       num_processes)
             bad
             (after derive num_processes (num_processes * 1000) target_address
                    i0 pre (setup resume w))))).
Proof.
  intros Hnp Hstart start_from i0 run.
  set (chunks := upto limit (plan L wordlist start_from (num_processes * 1000))).
  destruct (split_at_failure abnormal chunks)
    as [Hs | (pre & bad & post & Hsplit & Hpre & Hbad)].
  - exists chunks, []. split; [now rewrite app_nil_r|]. split; [exact Hs|]. left.
    split; [reflexivity|].
    now apply (@start_upto_completes derive abnormal L num_processes wordlist
                 target_address limit resume w).
  - exists pre, (bad :: post). split; [exact Hsplit|]. split; [exact Hpre|]. right.
    exists bad, post. repeat split; [exact Hbad|].
    subst run.
    rewrite (@start_upto_batches derive abnormal L num_processes wordlist
               target_address limit resume w) by assumption.
    cbn zeta. fold start_from. fold chunks. rewrite Hsplit.
    now apply batches_failure.
Qed.

Lemma matches_In (derive : string -> derivation) (target_address : list string)
  (cands : list (list string)) (phrase address : string) :
  In (phrase, address) (matches derive target_address cands) <->
  exists c, In c cands /\ phrase = normalize c /\
            derive phrase = Derived address /\ In address target_address.
Proof.
  unfold matches. rewrite in_flat_map. split.
  - intros (c & Hc & Hin). exists c. split; [exact Hc|].
    destruct (derive (normalize c)) as [a| |e] eqn:Hd; try contradiction.
    destruct (member a target_address) eqn:Hm; [|contradiction].
    destruct Hin as [[= <- <-] | []].
    apply member_In in Hm. auto.
  - intros (c & Hc & -> & Hd & Hin). exists c. split; [exact Hc|].
    rewrite Hd. apply member_In in Hin. rewrite Hin. now left.
Qed.

(** The rows of a run: the batches [pre] whose matches it records do not
    depend on the rows the CSV file had. *)
Lemma run_rows (derive : string -> derivation)
  (abnormal : list string -> option failure) (L : nat) (num_processes : Z)
  (wordlist target_address : list string) (resume : bool) (p : Z) :
  (1 <= num_processes)%Z ->
  (0 <= (if resume then p else 0) <= maxsize)%Z ->
  exists pre, forall rows,
    let wf := final (start_with derive abnormal L num_processes wordlist
                                target_address resume (initial p rows)) in
    csv wf = (if resume then rows else [header])
             ++ matches derive target_address (concat pre) /\
    listed wf = matches derive target_address (concat pre) /\
    evaluated wf = concat pre.
Proof.
  intros Hnp Hstart.
  set (chunks := plan L wordlist (if resume then p else 0) (num_processes * 1000)).
  destruct (split_at_failure abnormal chunks)
    as [Hs | (pre & bad & post & Hsplit & Hpre & Hbad)].
  - exists chunks. intros rows. cbn zeta. unfold start_with.
    rewrite (@start_upto_completes derive abnormal L num_processes wordlist
               target_address None resume (initial p rows)) by assumption.
    repeat split; reflexivity.
  - exists pre. intros rows. cbn zeta. unfold start_with.
    rewrite (@start_upto_batches derive abnormal L num_processes wordlist
               target_address None resume (initial p rows)) by assumption.
    cbn zeta. cbn [upto initial progress]. fold chunks. rewrite Hsplit.
    rewrite (stopped_final
               (@batches_failure derive abnormal num_processes
                  (num_processes * 1000) target_address Hnp pre post bad
                  (setup resume (initial p rows)) _ Hpre Hbad)).
    repeat split; reflexivity.
Qed.

(** X2. However a run ends, completed or failed in a batch, the CSV file
    holds the rows it had (the header alone in a fresh run) followed by
    exactly the matches handed to [update_list_func], in the same order;
    and a pair is among them exactly when it is the normalised phrase of
    an evaluated candidate together with the address derived from it, that
    address being a target.  The phrases recorded are in lower case. *)
Theorem recorded_rows (derive : string -> derivation)
  (abnormal : list string -> option failure) (L : nat) (num_processes : Z)
  (wordlist target_address : list string) (resume : bool) (p : Z)
  (rows : list (string * string)) :
  (1 <= num_processes)%Z ->
  in_range (if resume then p else 0) ->
  let wf := final (start_with derive abnormal L num_processes wordlist
                              target_address resume (initial p rows)) in
  csv wf = (if resume then rows else [header]) ++ listed wf /\
  (forall phrase address,
     In (phrase, address) (listed wf) <->
     exists c, In c (evaluated wf) /\ phrase = normalize c /\
               derive phrase = Derived address /\ In address target_address) /\
  (forall phrase address,
     In (phrase, address) (listed wf) -> lower phrase = phrase).
Proof.
  intros Hnp Hrange wf.
  destruct (@run_rows derive abnormal L num_processes wordlist target_address
              resume p Hnp (in_range_maxsize Hrange)) as [pre Hshape].
  specialize (Hshape rows). cbn zeta in Hshape. fold wf in Hshape.
  destruct Hshape as (Hcsv & Hlisted & Heval).
  rewrite Hcsv, Hlisted, Heval. split; [reflexivity|]. split.
  - intros phrase address. apply matches_In.
  - intros phrase address Hin. apply matches_In in Hin.
    destruct Hin as (c & _ & -> & _). apply normalize_lowered.
Qed.

Lemma recorded_rows_witness :
  let wf := final (start_with abc_to_X no_fault 3 1 abcd only_X false
                              (initial 0 [])) in
  csv wf = [header] ++ listed wf /\
  (forall phrase address,
     In (phrase, address) (listed wf) <->
     exists c, In c (evaluated wf) /\ phrase = normalize c /\
               abc_to_X phrase = Derived address /\ In address only_X) /\
  (forall phrase address,
     In (phrase, address) (listed wf) -> lower phrase = phrase).
Proof.
  apply (@recorded_rows abc_to_X no_fault 3 1 abcd only_X false 0 []);
    [lia | unfold in_range; split; [simpl; lia | reflexivity]].
Defined.

(** X3. The batches of a run are submitted one at a time, in the order of
    the schedule, each after the results of the one before have been
    collected, and the run ends in the first batch in which a call fails
    abnormally.  The batches before that one, and only they, are resolved;
    that batch is the last one submitted and is never resolved; no batch
    after it is submitted.  The run completes exactly when there is no
    such batch.  Otherwise it hangs, a call of the batch having ended its
    worker, or it raises the exception of a call of the batch, which it
    does whenever no call of the batch ends its worker. *)
Theorem batches_in_order (derive : string -> derivation)
  (abnormal : list string -> option failure) (L : nat) (num_processes : Z)
  (wordlist target_address : list string) (resume : bool) (p : Z)
  (rows : list (string * string)) :
  (1 <= num_processes)%Z ->
  (0 <= (if resume then p else 0) <= maxsize)%Z ->
  let run := start_with derive abnormal L num_processes wordlist
                        target_address resume (initial p rows) in
  let chunks := plan L wordlist (if resume then p else 0) (num_processes * 1000) in
  exists pre post,
    chunks = pre ++ post /\
    Forall (sound abnormal) pre /\
    resolved (final run) = pre /\
    dispatched (final run) = pre ++ firstn 1 post /\
    (post = [] <-> run = Completed (final run)) /\
    (forall bad post', post = bad :: post' ->
       failing abnormal bad /\
       ((run = Hangs (final run) /\
         exists seeds, In seeds bad /\ abnormal seeds = Some Dies) \/
        (exists es,
           run = Raised (Reraised es) (final run) /\ es <> [] /\
           forall e, In e es ->
             exists seeds, In seeds bad /\ abnormal seeds = Some (Raises e))) /\
       ((forall seeds, In seeds bad -> abnormal seeds <> Some Dies) ->
        exists es, run = Raised (Reraised es) (final run))).
Proof.
  intros Hnp Hstart run chunks.
  destruct (@run_shape derive abnormal None L num_processes wordlist
              target_address resume (initial p rows) Hnp Hstart)
    as (pre & post & Hsplit & Hpre & Hrun).
  cbn zeta in Hrun. cbn [upto initial progress] in Hsplit, Hrun.
  fold chunks in Hsplit.
  fold (start_with derive abnormal L num_processes wordlist target_address
                   resume (initial p rows)) in Hrun. fold run in Hrun.
  exists pre, post. split; [exact Hsplit|]. split; [exact Hpre|].
  destruct Hrun as [[-> Hrun] | (bad & post' & -> & Hbad & Hstop)].
  - rewrite Hrun. cbn [final resolved dispatched after setup initial firstn app].
    rewrite app_nil_r.
    split; [reflexivity|]. split; [reflexivity|].
    split; [split; reflexivity|]. intros b q [=].
  - pose proof (stopped_final Hstop) as Hfinal.
    rewrite Hfinal. cbn [resolved dispatched dispatch after setup initial firstn app].
    split; [reflexivity|]. split; [reflexivity|]. split.
    + split; [discriminate|].
      intros Hc. destruct Hstop as [[Hr _] | (es & Hr & _)];
        rewrite Hr in Hc; discriminate.
    + intros bad' post'' [= <- <-]. split; [exact Hbad|]. split; [exact Hstop|].
      intros Hlive. destruct Hstop as [[_ (seeds & Hin & Hd)] | (es & Hr & _)].
      * exfalso. exact (Hlive seeds Hin Hd).
      * now exists es.
Qed.

Lemma batches_in_order_witness :
  let run := start_with rejects_all fails_on_gfedc 5 1 abcdefg [] false
                        (initial 0 []) in
  let chunks := plan 5 abcdefg 0 (1 * 1000) in
  exists pre post,
    chunks = pre ++ post /\
    Forall (sound fails_on_gfedc) pre /\
    resolved (final run) = pre /\
    dispatched (final run) = pre ++ firstn 1 post /\
    (post = [] <-> run = Completed (final run)) /\
    (forall bad post', post = bad :: post' ->
       failing fails_on_gfedc bad /\
       ((run = Hangs (final run) /\
         exists seeds, In seeds bad /\ fails_on_gfedc seeds = Some Dies) \/
        (exists es,
           run = Raised (Reraised es) (final run) /\ es <> [] /\
           forall e, In e es ->
             exists seeds, In seeds bad /\ fails_on_gfedc seeds = Some (Raises e))) /\
       ((forall seeds, In seeds bad -> fails_on_gfedc seeds <> Some Dies) ->
        exists es, run = Raised (Reraised es) (final run))).
Proof.
  apply (@batches_in_order rejects_all fails_on_gfedc 5 1 abcdefg [] false 0 []);
    [lia | apply in_range_maxsize, in_range_0].
Defined.

(** The run of the witness: two batches resolved, the third submitted, and
    the exception of the one failing call raised. *)
Example batches_in_order_numbers :
  let run := start_with rejects_all fails_on_gfedc 5 1 abcdefg [] false
                        (initial 0 []) in
  map (@length (list string)) (resolved (final run)) = [1000; 1000] /\
  map (@length (list string)) (dispatched (final run)) = [1000; 1000; 520] /\
  exists w', run = Raised (Reraised ["boom"%string]) w'.
Proof.
  intros run. split; [vm_compute; reflexivity|].
  split; [vm_compute; reflexivity|].
  eexists. vm_compute. reflexivity.
Qed.

(** ** The batches of a run *)

Lemma chunked_fuel_nth (A : Type) (fuel n : nat) (it : list A) (j : nat) :
  0 < n -> length it <= fuel ->
  nth_error (chunked_fuel fuel n it) j =
  if j * n <? length it then Some (firstn n (skipn (j * n) it)) else None.
Proof.
  intros Hn. revert it j. induction fuel as [|fuel IH]; intros it j Hfuel.
  - destruct it; [|simpl in Hfuel; lia].
    simpl length. destruct (Nat.ltb_spec (j * n) 0); [lia|]. now destruct j.
  - destruct it as [|x t].
    + rewrite chunked_fuel_nil. simpl length.
      destruct (Nat.ltb_spec (j * n) 0); [lia|]. now destruct j.
    + cbn [chunked_fuel]. destruct n as [|n]; [lia|].
      cbn [firstn]. destruct j as [|j].
      * simpl. reflexivity.
      * cbn [nth_error]. rewrite IH by (rewrite length_skipn; simpl in *; lia).
        rewrite length_skipn, skipn_skipn.
        replace (j * S n + S n) with (S j * S n) by lia.
        destruct (Nat.ltb_spec (j * S n) (length (x :: t) - S n));
          destruct (Nat.ltb_spec (S j * S n) (length (x :: t)));
          try reflexivity; lia.
Qed.

Lemma nth_error_enumerate (A : Type) (it : list A) (start : Z) (j : nat) :
  nth_error (enumerate it start) j =
  option_map (fun x => ((start + Z.of_nat j)%Z, x)) (nth_error it j).
Proof.
  revert start j. induction it as [|x t IH]; intros start j.
  - now destruct j.
  - destruct j as [|j]; cbn [enumerate nth_error option_map].
    + now rewrite Z.add_0_r.
    + rewrite IH. destruct (nth_error t j); simpl; [|reflexivity].
      do 2 f_equal. lia.
Qed.

Lemma chunked_fuel_sizes (A : Type) (fuel n : nat) (it : list A) :
  Forall (fun c => 0 < length c <= n) (chunked_fuel fuel n it).
Proof.
  revert it. induction fuel as [|fuel IH]; intros it; simpl; [constructor|].
  destruct (firstn n it) as [|y c] eqn:E; constructor.
  - rewrite <- E, length_firstn.
    assert (length (firstn n it) = S (length c)) by now rewrite E.
    rewrite length_firstn in *. lia.
  - apply IH.
Qed.

(** X4. The batches of a run are consecutive ranges of ranks.  With start
    rank [s] and batch size [B], the batch at position [j] of the schedule
    exists exactly when rank [s + j B] lies in the permutation space; it
    is numbered [int(s / B) - 1 + j] and holds the candidates of ranks
    [s + j B] up to, and not including, [s + (j + 1) B], cut at the end of
    the space.  So every batch holds at least one and at most [B]
    candidates. *)
Theorem batch_ranges (L : nat) (wordlist : list string)
  (start_from chunk_size : Z) (j : nat) :
  (0 < chunk_size)%Z -> in_range start_from ->
  let B := Z.to_nat chunk_size in
  let s := Z.to_nat start_from in
  nth_error (schedule L wordlist start_from chunk_size) j =
    (if s + j * B <? length (permutations wordlist L)
     then Some ((Z.quot start_from chunk_size - 1 + Z.of_nat j)%Z,
                firstn B (skipn (s + j * B) (permutations wordlist L)))
     else None) /\
  Forall (fun ic => 0 < length (snd ic) <= B)
         (schedule L wordlist start_from chunk_size).
Proof.
  intros Hcs Hrange B s. unfold schedule.
  rewrite (quotient_exact Hrange Hcs). destruct Hrange as [Hs _]. split.
  - rewrite nth_error_enumerate. unfold chunked.
    rewrite chunked_fuel_nth by (fold B; lia).
    rewrite islice_skipn, length_skipn, skipn_skipn. fold B s.
    replace (j * B + s) with (s + j * B) by lia.
    destruct (Nat.ltb_spec (j * B) (length (permutations wordlist L) - s));
      destruct (Nat.ltb_spec (s + j * B) (length (permutations wordlist L)));
      try reflexivity; lia.
  - rewrite Forall_forall. intros [i c] Hin.
    assert (Hc : In c (chunked (islice (permutations wordlist L) s) B)).
    { rewrite <- (enumerate_snd (chunked (islice (permutations wordlist L) s) B)
                    (Z.quot start_from chunk_size - 1)).
      apply in_map_iff. exists (i, c). split; [reflexivity | exact Hin]. }
    pose proof (chunked_fuel_sizes (length (islice (permutations wordlist L) s))
                  B (islice (permutations wordlist L) s)) as Hall.
    rewrite Forall_forall in Hall. apply Hall, Hc.
Qed.

Lemma batch_ranges_witness :
  nth_error (schedule 5 abcdefg 1000 1000) 1 =
    (if 1000 + 1 * 1000 <? length (permutations abcdefg 5)
     then Some ((Z.quot 1000 1000 - 1 + Z.of_nat 1)%Z,
                firstn 1000 (skipn (1000 + 1 * 1000) (permutations abcdefg 5)))
     else None) /\
  Forall (fun ic => 0 < length (snd ic) <= 1000) (schedule 5 abcdefg 1000 1000).
Proof.
  apply (@batch_ranges 5 abcdefg 1000 1000 1);
    [lia | unfold in_range; split; [lia | reflexivity]].
Defined.

Lemma numbers_seq (n : nat) (i0 : Z) :
  numbers i0 n = map (fun k => (i0 + Z.of_nat k)%Z) (seq 0 n).
Proof.
  revert i0. induction n as [|n IH]; intros i0; [reflexivity|].
  cbn [numbers seq map]. rewrite Z.add_0_r. f_equal.
  rewrite IH, <- seq_shift, map_map. apply map_ext. intros k. lia.
Qed.

(** X5. The status calls of a completed run are the starting message and
    then one message per batch, in order, sent before the batch is
    submitted.  The count shown with the batch at position [k] is
    [(int(start_from / chunk_size) + k) * chunk_size]: it never exceeds the
    rank of the first candidate of that batch, and it is that rank when
    the start rank is a multiple of the batch size (as in a fresh run). *)
Theorem status_counts (derive : string -> derivation) (L : nat)
  (num_processes : Z) (wordlist target_address : list string) (resume : bool)
  (p : Z) (rows : list (string * string)) :
  (1 <= num_processes)%Z ->
  in_range (if resume then p else 0) ->
  let chunk_size := (num_processes * 1000)%Z in
  let start_from := (if resume then p else 0)%Z in
  let chunks := plan L wordlist start_from chunk_size in
  let shown k := ((Z.quot start_from chunk_size + Z.of_nat k) * chunk_size)%Z in
  let rank k := (start_from + Z.of_nat (length (concat (firstn k chunks))))%Z in
  (exists w',
     start_with derive no_fault L num_processes wordlist target_address resume
                (initial p rows) = Completed w' /\
     statuses w' = Starting :: map (fun k => Checking (shown k) num_processes)
                                   (seq 0 (length chunks))) /\
  (forall k, k < length chunks ->
     (shown k <= rank k)%Z /\ ((chunk_size | start_from)%Z -> shown k = rank k)).
Proof.
  intros Hnp Hrange. cbn beta zeta. pose proof Hrange as [Hstart _].
  set (cs := (num_processes * 1000)%Z).
  set (s := (if resume then p else 0)%Z) in *.
  assert (Hcs : (0 < cs)%Z) by (unfold cs; lia).
  split.
  - eexists. split.
    + unfold start_with.
      apply (@start_upto_sound derive no_fault L num_processes wordlist
               target_address None resume (initial p rows));
        [assumption | assumption | apply sound_no_fault].
    + cbn [statuses after setup initial upto progress app]. fold s cs.
      rewrite numbers_seq, map_map. f_equal.
      apply map_ext. intros k. do 2 f_equal. lia.
  - intros k Hk.
    rewrite (@plan_full L wordlist s cs k Hk).
    rewrite Nat2Z.inj_mul, Z2Nat.id by lia.
    split.
    + assert (Z.quot s cs * cs <= s)%Z; [|lia].
      rewrite Z.quot_div_nonneg by lia.
      rewrite Z.mul_comm. apply Z.mul_div_le. lia.
    + intros [m Hm]. rewrite Hm, Z.quot_mul by lia. lia.
Qed.

Lemma status_counts_witness :
  let chunks := plan 5 abcdefg 0 (1 * 1000) in
  let shown k := ((Z.quot 0 (1 * 1000) + Z.of_nat k) * (1 * 1000))%Z in
  let rank k := (0 + Z.of_nat (length (concat (firstn k chunks))))%Z in
  (exists w',
     start_with rejects_all no_fault 5 1 abcdefg [] false (initial 0 [])
       = Completed w' /\
     statuses w' = Starting :: map (fun k => Checking (shown k) 1)
                                   (seq 0 (length chunks))) /\
  (forall k, k < length chunks ->
     (shown k <= rank k)%Z /\ ((1 * 1000 | 0)%Z -> shown k = rank k)).
Proof.
  apply (@status_counts rejects_all 5 1 abcdefg [] false 0 []);
    [lia | unfold in_range; split; [simpl; lia | reflexivity]].
Defined.

(** ** Stopping and resuming *)

Lemma upto_prefix (limit : option nat) (chunks : list (list (list string))) :
  exists rest, chunks = upto limit chunks ++ rest.
Proof.
  destruct limit as [j|]; simpl.
  - exists (skipn j chunks). now rewrite firstn_skipn.
  - exists []. now rewrite app_nil_r.
Qed.

(** X6. No candidate is skipped between a run and its resumption.  Let a
    fresh run over a stored progress of 0 end in any way: completed,
    stopped at a batch boundary, or ended in a batch by an abnormal
    failure.  The candidates it has evaluated are an initial segment of
    the permutation space; the progress it leaves stored is at least 0 and
    at most their number.  A run resumed from the world it leaves, the
    stored rank being at most [sys.maxsize] and whatever fails in the
    resumed run, evaluates candidates from the stored rank on, in order
    and without a gap; if it completes, it has evaluated the whole space
    from the stored rank on; and it completes when none of its calls fails
    abnormally. *)
Theorem stop_and_resume (derive : string -> derivation)
  (abnormal resumed : list string -> option failure) (limit : option nat)
  (L : nat) (num_processes : Z) (wordlist target_address : list string)
  (rows : list (string * string)) :
  (1 <= num_processes)%Z ->
  let full := permutations wordlist L in
  let w1 := final (start_upto derive abnormal limit L num_processes wordlist
                              target_address false (initial 0 rows)) in
  let run2 := start_with derive resumed L num_processes wordlist
                         target_address true w1 in
  let rest := skipn (Z.to_nat (progress w1)) full in
  evaluated w1 = firstn (length (evaluated w1)) full /\
  (0 <= progress w1 <= Z.of_nat (length (evaluated w1)))%Z /\
  ((progress w1 <= maxsize)%Z ->
   (exists k, evaluated (final run2) = evaluated w1 ++ firstn k rest) /\
   (forall w2, run2 = Completed w2 -> evaluated w2 = evaluated w1 ++ rest) /\
   (Forall (sound resumed)
           (plan L wordlist (progress w1) (num_processes * 1000)) ->
    exists w2, run2 = Completed w2)).
Proof.
  intros Hnp full w1 run2 rest.
  set (cs := (num_processes * 1000)%Z).
  assert (Hcs : (0 < cs)%Z) by (unfold cs; lia).
  assert (Hzero : (0 <= (if false then 0 else 0) <= maxsize)%Z)
    by (apply in_range_maxsize, in_range_0).
  assert (Hshape : exists pre tail,
    plan L wordlist 0 cs = pre ++ tail /\
    evaluated w1 = concat pre /\
    progress w1 = last (marks cs (numbers (-1) (length pre))) 0%Z).
  { destruct (@run_shape derive abnormal limit L num_processes wordlist
                target_address false (initial 0 rows) Hnp Hzero)
      as (pre & post & Hsplit & _ & Hrun).
    destruct (upto_prefix limit (plan L wordlist 0 cs)) as [tail Htail].
    cbn zeta in Hrun. fold cs in Hsplit, Hrun.
    exists pre, (post ++ tail). split.
    - rewrite Htail at 1. change (if false then progress (initial 0 rows) else 0%Z)
        with 0%Z in Hsplit.
      now rewrite Hsplit, <- app_assoc.
    - destruct Hrun as [[_ Hrun] | (bad & post' & _ & _ & Hstop)].
      + subst w1. rewrite Hrun. split; reflexivity.
      + apply stopped_final in Hstop. subst w1. rewrite Hstop.
        split; reflexivity. }
  destruct Hshape as (pre & tail & Hplan & Heval & Hprog).
  assert (Hfull : concat (plan L wordlist 0 cs) = full).
  { unfold plan. rewrite chunked_concat by lia. now rewrite islice_skipn. }
  assert (Hfirst : firstn (length pre) (plan L wordlist 0 cs) = pre)
    by (rewrite Hplan; apply firstn_length_app).
  assert (Hbound : (0 <= progress w1 <= Z.of_nat (length (evaluated w1)))%Z).
  { rewrite Hprog, Heval.
    destruct (last_cases (marks cs (numbers (-1) (length pre))) 0%Z)
      as [[_ ->] | Hin]; [lia|].
    pose proof (@mark_bound L num_processes wordlist false 0 Hnp Hzero
                  (length pre)
                  (last (marks cs (numbers (-1) (length pre))) 0%Z) in_range_0)
      as Hmark.
    cbn beta iota zeta in Hmark. fold cs in Hmark.
    rewrite Hfirst in Hmark. specialize (Hmark Hin).
    assert (Hq : (Z.quot 0 cs * cs = 0)%Z) by (rewrite Z.quot_0_l; lia).
    rewrite Hq in Hmark. lia. }
  split; [|split; [exact Hbound|]].
  - rewrite Heval, <- Hfull, Hplan, concat_app. apply eq_sym, firstn_length_app.
  - intros Hmax.
    assert (Hstart : (0 <= (if true then progress w1 else 0) <= maxsize)%Z)
      by (cbn iota; lia).
    assert (Hrest : concat (plan L wordlist (progress w1) cs) = rest).
    { unfold plan. rewrite chunked_concat by lia. apply islice_skipn. }
    destruct (@run_shape derive resumed None L num_processes wordlist
                target_address true w1 Hnp Hstart)
      as (pre2 & post2 & Hsplit2 & _ & Hrun2).
    cbn zeta in Hrun2. cbn [upto] in Hsplit2. fold cs in Hsplit2, Hrun2.
    fold (start_with derive resumed L num_processes wordlist target_address
                     true w1) in Hrun2. fold run2 in Hrun2.
    assert (Hpre2 : concat pre2 = firstn (length (concat pre2)) rest).
    { rewrite <- Hrest, Hsplit2, concat_app. apply eq_sym, firstn_length_app. }
    split; [|split].
    + exists (length (concat pre2)). rewrite <- Hpre2.
      destruct Hrun2 as [[_ Hrun2] | (bad & post' & _ & _ & Hstop)].
      * rewrite Hrun2. unfold evaluated. cbn [final resolved after setup].
        apply concat_app.
      * apply stopped_final in Hstop. rewrite Hstop. unfold evaluated.
        cbn [resolved dispatch after setup]. apply concat_app.
    + intros w2 Hc.
      destruct Hrun2 as [[Hpost Hrun2] | (bad & post' & _ & _ & Hstop)].
      * rewrite Hrun2 in Hc. injection Hc as <-.
        unfold evaluated. cbn [resolved after setup].
        rewrite concat_app. f_equal.
        rewrite <- Hrest, Hsplit2, Hpost. now rewrite app_nil_r.
      * destruct Hstop as [[Hr _] | (es & Hr & _)]; rewrite Hr in Hc;
          discriminate.
    + intros Hsound. eexists. unfold run2, start_with.
      apply (@start_upto_completes derive resumed L num_processes wordlist
               target_address None true w1 Hnp Hstart Hsound).
Qed.

Lemma stop_and_resume_witness :
  let full := permutations abcdefg 5 in
  let w1 := final (start_upto rejects_all fails_on_gfedc (Some 2) 5 1 abcdefg []
                              false (initial 0 [])) in
  let run2 := start_with rejects_all no_fault 5 1 abcdefg [] true w1 in
  let rest := skipn (Z.to_nat (progress w1)) full in
  evaluated w1 = firstn (length (evaluated w1)) full /\
  (0 <= progress w1 <= Z.of_nat (length (evaluated w1)))%Z /\
  (exists k, evaluated (final run2) = evaluated w1 ++ firstn k rest) /\
  exists w2, run2 = Completed w2 /\ evaluated w2 = evaluated w1 ++ rest.
Proof.
  intros full w1 run2 rest.
  destruct (@stop_and_resume rejects_all fails_on_gfedc no_fault (Some 2) 5 1
              abcdefg [] [])
    as (H1 & H2 & H3); [lia|].
  split; [exact H1|]. split; [exact H2|].
  destruct H3 as (H3 & H4 & H5); [vm_compute; discriminate|].
  split; [exact H3|].
  destruct H5 as [w2 Hw2]; [apply sound_no_fault|].
  exists w2. split; [exact Hw2 | exact (H4 w2 Hw2)].
Defined.

(** The run of the witness: stopped after two of its three batches, it has
    evaluated 2000 candidates and left 1000 stored; resumed, it evaluates
    the 1520 candidates from rank 1000 on. *)
Example stop_and_resume_numbers :
  let w1 := final (start_upto rejects_all no_fault (Some 2) 5 1 abcdefg []
                              false (initial 0 [])) in
  let w2 := final (start_with rejects_all no_fault 5 1 abcdefg [] true w1) in
  length (evaluated w1) = 2000 /\ progress w1 = 1000%Z /\
  length (evaluated w2) = 2000 + 1520 /\ progress w2 = 1000%Z.
Proof. vm_compute. repeat split; reflexivity. Qed.

(** ** The constructor *)

(** X8. The constructor and the CSV file.  [__init__] leaves a file that
    exists as it is and gives a missing file its header row, so calling it
    again changes nothing.  A resumed run appends its matches to the rows
    it finds: the matches do not depend on those rows; and when the file
    was missing, it consists of the matches alone, without a header,
    unless the constructor has run before. *)
Theorem constructor_then_resume (derive : string -> derivation)
  (abnormal : list string -> option failure) (L : nat) (num_processes : Z)
  (wordlist target_address : list string) (p : Z)
  (file : option (list (string * string))) :
  (1 <= num_processes)%Z -> in_range p ->
  let run rows := final (start_with derive abnormal L num_processes wordlist
                                    target_address true (initial p rows)) in
  init (init file) = init file /\
  (forall rows, file = Some rows -> init file = Some rows) /\
  listed (run (opened (init file))) = listed (run (opened file)) /\
  csv (run (opened file)) = opened file ++ listed (run (opened file)) /\
  csv (run (opened (init file)))
    = opened (init file) ++ listed (run (opened (init file))) /\
  (file = None ->
   csv (run (opened file)) = listed (run (opened file)) /\
   csv (run (opened (init file))) = header :: listed (run (opened (init file)))).
Proof.
  intros Hnp Hrange. cbn beta zeta.
  assert (Hstart : (0 <= (if true then p else 0) <= maxsize)%Z)
    by exact (in_range_maxsize Hrange).
  destruct (@run_rows derive abnormal L num_processes wordlist target_address
              true p Hnp Hstart) as [pre Hrows].
  cbn zeta in Hrows.
  destruct (Hrows (opened file)) as (Hc0 & Hl0 & _).
  destruct (Hrows (opened (init file))) as (Hc1 & Hl1 & _).
  rewrite Hc0, Hc1, Hl0, Hl1.
  split; [now destruct file|]. split; [now intros rows ->|].
  split; [reflexivity|]. split; [reflexivity|]. split; [reflexivity|].
  intros ->. split; reflexivity.
Qed.

Lemma constructor_then_resume_witness :
  let run rows := final (start_with abc_to_X no_fault 3 1 abcd only_X true
                                    (initial 0 rows)) in
  init (init None) = init None /\
  (forall rows, @None (list (string * string)) = Some rows -> init None = Some rows) /\
  listed (run (opened (init None))) = listed (run (opened None)) /\
  csv (run (opened None)) = opened None ++ listed (run (opened None)) /\
  csv (run (opened (init None)))
    = opened (init None) ++ listed (run (opened (init None))) /\
  (@None (list (string * string)) = None ->
   csv (run (opened None)) = listed (run (opened None)) /\
   csv (run (opened (init None))) = header :: listed (run (opened (init None)))).
Proof.
  apply (@constructor_then_resume abc_to_X no_fault 3 1 abcd only_X 0 None);
    [lia | unfold in_range; split; [lia | reflexivity]].
Defined.

(** ** Phrases of twelve words *)

(** X9. What [start] itself, with its phrases of 12 words, goes through.
    On a list of [n >= 12] words, repeated or not, and without abnormal
    failure, it completes; a fresh run evaluates the whole enumeration,
    [n! / (n - 12)!] candidates, and a run resumed from a stored progress
    [p >= 0] that many less [p] (none when [p] is beyond). *)
Theorem start_counts (derive : string -> derivation) (num_processes : Z)
  (wordlist target_address : list string) (resume : bool) (p : Z)
  (rows : list (string * string)) :
  (1 <= num_processes)%Z -> in_range (if resume then p else 0) ->
  12 <= length wordlist ->
  exists w',
    start derive no_fault num_processes wordlist target_address resume
          (initial p rows) = Completed w' /\
    evaluated w'
      = skipn (Z.to_nat (if resume then p else 0)) (permutations wordlist 12) /\
    length (evaluated w')
      = fact (length wordlist) / fact (length wordlist - 12)
        - Z.to_nat (if resume then p else 0).
Proof.
  intros Hnp Hrange Hlen. unfold start, start_with.
  pose proof Hrange as [Hstart _].
  rewrite (@start_upto_sound derive no_fault 12 num_processes wordlist
             target_address None resume (initial p rows));
    [| assumption | assumption | apply sound_no_fault].
  eexists. split; [reflexivity|].
  assert (Heval : evaluated
            (after derive num_processes (num_processes * 1000) target_address
               (Z.quot (if resume then progress (initial p rows) else 0)
                       (num_processes * 1000) - 1)
               (upto None (plan 12 wordlist
                             (if resume then progress (initial p rows) else 0)
                             (num_processes * 1000)))
               (setup resume (initial p rows)))
          = skipn (Z.to_nat (if resume then p else 0)) (permutations wordlist 12)).
  { unfold evaluated. cbn [resolved after setup initial upto progress app].
    unfold plan. rewrite chunked_concat by lia. apply islice_skipn. }
  rewrite Heval. split; [reflexivity|].
  rewrite length_skipn, permutations_arrangements.
  now rewrite arrangements_count.
Qed.

Lemma start_counts_witness :
  exists w',
    start rejects_all no_fault 1 twelve [] true (initial 5 []) = Completed w' /\
    evaluated w'
      = skipn (Z.to_nat (if true then 5 else 0)) (permutations twelve 12) /\
    length (evaluated w')
      = fact (length twelve) / fact (length twelve - 12)
        - Z.to_nat (if true then 5 else 0).
Proof.
  apply (@start_counts rejects_all 1 twelve [] true 5 []).
  - lia.
  - unfold in_range. split; [lia | reflexivity].
  - unfold twelve. cbn [length]. lia.
Defined.

(** ** The checkpoints of a fresh run *)

Lemma fresh_marks (chunk_size : Z) (n : nat) :
  marks chunk_size (numbers (-1) n)
  = map (fun m => ((10 * Z.of_nat m + 1) * chunk_size)%Z) (seq 0 ((n + 8) / 10)).
Proof.
  induction n as [|n IH]; [reflexivity|].
  rewrite marks_snoc, IH.
  pose proof (Nat.div_mod_eq (n + 8) 10) as H1.
  pose proof (Nat.div_mod_eq (S n + 8) 10) as H2.
  pose proof (Nat.mod_upper_bound (n + 8) 10) as H3.
  pose proof (Nat.mod_upper_bound (S n + 8) 10) as H4.
  pose proof (Z.div_mod (-1 + Z.of_nat n) 10) as H5.
  pose proof (Z.mod_pos_bound (-1 + Z.of_nat n) 10) as H6.
  destruct (Z.eqb_spec ((-1 + Z.of_nat n) mod 10) 0) as [E | E].
  - replace ((S n + 8) / 10) with (S ((n + 8) / 10)) by lia.
    rewrite seq_S, map_app. cbn [map]. do 3 f_equal. lia.
  - replace ((S n + 8) / 10) with ((n + 8) / 10) by lia.
    now rewrite app_nil_r.
Qed.

(** X10. The checkpoints of a fresh run that completes without abnormal
    failure, batch size [B]: they are written after its batches 2, 12, 22
    and so on, as far as the run has such batches, and the values written
    are [B], [11 B], [21 B] and so on; a run of [n] batches writes
    [(n + 8) / 10] of them.  The progress it leaves stored is the last of
    them, the start of the batch after which it has been written, or the
    value stored before when the run has fewer than two batches. *)
Theorem fresh_checkpoints (derive : string -> derivation) (L : nat)
  (num_processes : Z) (wordlist target_address : list string) (p : Z)
  (rows : list (string * string)) :
  (1 <= num_processes)%Z ->
  let B := (num_processes * 1000)%Z in
  let n := length (plan L wordlist 0 B) in
  exists w',
    start_with derive no_fault L num_processes wordlist target_address false
               (initial p rows) = Completed w' /\
    saves w' = map (fun m => ((10 * Z.of_nat m + 1) * B)%Z) (seq 0 ((n + 8) / 10)) /\
    progress w' = last (saves w') p /\
    (n < 2 -> progress w' = p) /\
    (2 <= n -> progress w' = ((10 * Z.of_nat ((n - 2) / 10) + 1) * B)%Z).
Proof.
  intros Hnp B n.
  eexists. split.
  - unfold start_with.
    apply (@start_upto_sound derive no_fault L num_processes wordlist
             target_address None false (initial p rows));
      [assumption | apply in_range_0 | apply sound_no_fault].
  - cbn [saves progress after setup initial upto app].
    rewrite Z.quot_0_l by lia. change (0 - 1)%Z with (-1)%Z.
    fold B. fold n. rewrite fresh_marks.
    split; [reflexivity|]. split; [reflexivity|].
    pose proof (Nat.div_mod_eq (n + 8) 10) as H1.
    pose proof (Nat.mod_upper_bound (n + 8) 10) as H3.
    pose proof (Nat.div_mod_eq (n - 2) 10) as H2.
    pose proof (Nat.mod_upper_bound (n - 2) 10) as H4.
    split.
    + intros Hn. replace ((n + 8) / 10) with 0 by lia. reflexivity.
    + intros Hn. replace ((n + 8) / 10) with (S ((n - 2) / 10)) by lia.
      rewrite seq_S, map_app, last_app_default. reflexivity.
Qed.

Lemma fresh_checkpoints_witness :
  let B := (1 * 1000)%Z in
  let n := length (plan 5 abcdefg 0 B) in
  exists w',
    start_with rejects_all no_fault 5 1 abcdefg [] false (initial 7 [])
      = Completed w' /\
    saves w' = map (fun m => ((10 * Z.of_nat m + 1) * B)%Z) (seq 0 ((n + 8) / 10)) /\
    progress w' = last (saves w') 7%Z /\
    (n < 2 -> progress w' = 7%Z) /\
    (2 <= n -> progress w' = ((10 * Z.of_nat ((n - 2) / 10) + 1) * B)%Z).
Proof. apply (@fresh_checkpoints rejects_all 5 1 abcdefg [] 7 []). lia. Defined.

(** ** Repeated words in the pool *)

Lemma flat_map_twice (A B : Type) (f : B -> list A) (s1 s2 s3 : list B)
  (a b : B) (c : A) :
  In c (f a) -> In c (f b) ->
  ~ NoDup (flat_map f (s1 ++ a :: s2 ++ b :: s3)).
Proof.
  intros Ha Hb Hnd.
  rewrite flat_map_app in Hnd. apply NoDup_app_remove_l in Hnd.
  cbn [flat_map] in Hnd.
  apply in_split in Ha. destruct Ha as (u & v & Hfa). rewrite Hfa in Hnd.
  rewrite <- app_assoc in Hnd. apply NoDup_app_remove_l in Hnd.
  cbn [app] in Hnd. apply NoDup_cons_iff in Hnd. destruct Hnd as [Hnot _].
  apply Hnot. apply in_or_app. right.
  rewrite flat_map_app. apply in_or_app. right.
  cbn [flat_map]. apply in_or_app. left. exact Hb.
Qed.

Section RepeatedItems.

Context {A : Type}.

Lemma selections_app (a b pre : list A) :
  selections pre (a ++ b)
  = map (fun s => (fst s, snd s ++ b)) (selections pre a)
    ++ selections (pre ++ a) b.
Proof.
  revert pre. induction a as [|x a IH]; intros pre; simpl.
  - now rewrite app_nil_r.
  - rewrite <- app_assoc. f_equal. rewrite IH, <- app_assoc. reflexivity.
Qed.

Lemma selections_In_iff (l : list A) (x : A) (rest : list A) :
  In (x, rest) (selections [] l) <->
  exists l1 l2, l = l1 ++ x :: l2 /\ rest = l1 ++ l2.
Proof.
  split.
  - intros H. apply selections_In in H. exact H.
  - intros (l1 & l2 & -> & ->). rewrite selections_app.
    apply in_or_app. right. simpl. left. reflexivity.
Qed.

(** Membership in the enumeration does not depend on the order of the
    pool. *)
Lemma arrangements_Permutation (r : nat) (l l' : list A) (c : list A) :
  Permutation l l' -> In c (arrangements r l) -> In c (arrangements r l').
Proof.
  revert l l' c. induction r as [|r IH]; intros l l' c Hp; [exact (fun H => H)|].
  cbn [arrangements]. rewrite !in_flat_map.
  intros ([x rest] & Hsel & Hc). cbn [fst snd] in Hc.
  apply in_map_iff in Hc. destruct Hc as (c' & <- & Hc').
  apply selections_In_iff in Hsel. destruct Hsel as (l1 & l2 & -> & ->).
  assert (Hin : In x l') by (apply (Permutation_in _ Hp), in_elt).
  apply in_split in Hin. destruct Hin as (l1' & l2' & ->).
  exists (x, l1' ++ l2'). split.
  - apply selections_In_iff. now exists l1', l2'.
  - cbn [fst snd]. apply in_map.
    apply (IH (l1 ++ l2)); [|exact Hc'].
    now apply Permutation_app_inv in Hp.
Qed.

Lemma arrangements_nonempty (r : nat) (l : list A) :
  r <= length l -> exists c, In c (arrangements r l).
Proof.
  intros H. destruct (@arrangements_hd A r l H) as [t Ht].
  exists (firstn r l). rewrite Ht. now left.
Qed.

(** A pool with a repeated item yields some tuple twice. *)
Lemma arrangements_repeated (r : nat) (l1 l2 l3 : list A) (x : A) :
  1 <= r -> r <= length (l1 ++ x :: l2 ++ x :: l3) ->
  ~ NoDup (arrangements r (l1 ++ x :: l2 ++ x :: l3)).
Proof.
  intros Hr Hlen. destruct r as [|r]; [lia|].
  cbn [arrangements].
  rewrite selections_app. cbn [selections app].
  rewrite (selections_app l2 (x :: l3)). cbn [selections app].
  destruct (@arrangements_nonempty r (l1 ++ l2 ++ x :: l3)) as [c Hc].
  { rewrite !length_app in *. cbn [length] in *.
    rewrite !length_app in *. cbn [length] in *. lia. }
  apply (@flat_map_twice (list A)) with (c := x :: c); cbn [fst snd].
  - apply in_map. exact Hc.
  - apply in_map. rewrite <- !app_assoc. cbn [app].
    apply (@arrangements_Permutation r (l1 ++ l2 ++ x :: l3)); [|exact Hc].
    apply Permutation_app_head. symmetry. apply Permutation_middle.
Qed.

End RepeatedItems.

Lemma repeated_split (l : list string) :
  ~ NoDup l -> exists x l1 l2 l3, l = l1 ++ x :: l2 ++ x :: l3.
Proof.
  induction l as [|a t IH]; intros H; [exfalso; apply H; constructor|].
  destruct (in_dec string_dec a t) as [Hin | Hnot].
  - apply in_split in Hin. destruct Hin as (l2 & l3 & ->).
    now exists a, [], l2, l3.
  - destruct IH as (x & l1 & l2 & l3 & ->).
    + intros Hnd. apply H. now constructor.
    + now exists x, (a :: l1), l2, l3.
Qed.

(** X11. The candidates are pairwise different exactly when the words of
    the pool are: for a phrase length between 1 and the size of the pool,
    a word that occurs twice in the pool makes the generator yield some
    candidate twice, and a pool without repeated word never does. *)
Theorem repeated_words (pool : list string) (r : nat) :
  1 <= r -> r <= length pool ->
  (NoDup (permutations pool r) <-> NoDup pool).
Proof.
  intros Hr Hlen. rewrite permutations_arrangements. split.
  - intros Hnd. destruct (ListDec.NoDup_dec string_dec pool) as [H | H];
      [exact H | exfalso].
    apply repeated_split in H. destruct H as (x & l1 & l2 & l3 & ->).
    now apply (@arrangements_repeated string r l1 l2 l3 x Hr Hlen).
  - intros Hnd.
    apply StronglySorted_NoDup with (R := lex_lt (before pool)).
    + intros c _. apply lex_lt_irrefl. intros x _. now apply before_irrefl.
    + apply arrangements_sorted. now apply before_sorted_from with (pre := []).
Qed.

Lemma repeated_words_witness :
  NoDup (permutations abcd 3) <-> NoDup abcd.
Proof. apply (@repeated_words abcd 3); simpl; lia. Defined.
